(** * Autodistil-KG client: run-monitoring layer

    A shallow embedding of the client's transport functions
    ([src/api/client.ts]), of the request/response submission path of
    [handleRun] ([src/components/ConfigurePipeline.tsx]) and of the two
    reducers of [src/components/MonitorProgress.tsx]: the live fold
    [stagesFromWsEvents] and the snapshot polling callback.

    Conventions.
    - JavaScript strings are [string]; [undefined]/[null] is [None].
    - Array lengths and counters are [Z]; a JavaScript number that may be
      [NaN] or infinite is a [Js.number].  The percentage of the live fold
      is computed as the program computes it, in IEEE binary64 arithmetic
      (the kernel's primitive floats), and [Math.round] is taken of the
      exact value of the resulting double.  The percentage of a terminal
      poll, of which only the division by zero and the range are examined,
      is computed with exact quotients.
    - [new Date().toISOString().slice(11, 19)] reads the wall clock.  The
      clock is an explicit argument: either the stamp itself or, for a loop,
      a function giving the stamp obtained by the [i]-th read.
    - Callbacks handed to the transport are recorded in a trace. *)

From Stdlib Require Import ZArith QArith Qround.
From Stdlib Require PrimFloat FloatOps SpecFloat.
From stdpp Require Import gmap strings list pretty.
From stdpp Require Import sorting.

Local Open Scope Z_scope.

(** ** JavaScript primitives used by the sources *)

Module Js.

Inductive number : Type :=
| Finite (z : Z)
| NaN
| Infinity.

(** Truthiness of a possibly missing string: [undefined], [null] and the
    empty string are falsy. *)
Definition truthy (o : option string) : bool :=
  match o with
  | Some s => negb (String.eqb s "")
  | None => false
  end.

(** [a || b] on possibly missing strings, with a string fallback. *)
Definition or_else (o : option string) (fallback : string) : string :=
  match o with
  | Some s => if String.eqb s "" then fallback else s
  | None => fallback
  end.

(** [a ?? b]: only [undefined]/[null] select the fallback. *)
Definition nullish {A} (o : option A) (fallback : A) : A :=
  match o with
  | Some a => a
  | None => fallback
  end.

(** [n || 1] on a number. *)
Definition or_one (n : Z) : Z := if n =? 0 then 1 else n.

Definition Math_round (q : Q) : Z := Qfloor (q + (1 # 2)).

(** [Math.round((c / t) * 100)] for integers [c] and [t >= 0] with the
    quotient and the product taken exactly; the division by zero of IEEE
    arithmetic is written out. *)
Definition round_ratio_pct (c t : Z) : number :=
  if t =? 0 then (if c =? 0 then NaN else Infinity)
  else Finite (Math_round ((inject_Z c / inject_Z t) * 100)).

(** The double that holds an integer.  Every step is exact below [2^53],
    which covers array lengths (below [2^32]) and counters of events. *)
Fixpoint float_of_pos (p : positive) : PrimFloat.float :=
  match p with
  | xH => PrimFloat.one
  | xO p' => PrimFloat.mul PrimFloat.two (float_of_pos p')
  | xI p' =>
      PrimFloat.add (PrimFloat.mul PrimFloat.two (float_of_pos p')) PrimFloat.one
  end.

Definition float_of_Z (z : Z) : PrimFloat.float :=
  match z with
  | Z0 => PrimFloat.zero
  | Zpos p => float_of_pos p
  | Zneg p => PrimFloat.opp (float_of_pos p)
  end.

(** The rational a finite double stands for: sign, mantissa and exponent. *)
Definition double_value (s : bool) (m : positive) (e : Z) : Q :=
  (inject_Z (if s then Z.neg m else Z.pos m) * (2 # 1) ^ e)%Q.

(** [Math.round x] for a double [x]: the integer closest to the value of
    [x], the larger one on a tie; [NaN] and the infinities are returned as
    they are. *)
Definition Math_round_double (x : PrimFloat.float) : number :=
  match FloatOps.Prim2SF x with
  | SpecFloat.S754_zero _ => Finite 0
  | SpecFloat.S754_infinity _ => Infinity
  | SpecFloat.S754_nan => NaN
  | SpecFloat.S754_finite s m e => Finite (Math_round (double_value s m e))
  end.

(** [Math.round((c / t) * 100)] as the program evaluates it: a double
    division, a double multiplication, then the rounding. *)
Definition round_ratio_pct_double (c t : Z) : number :=
  Math_round_double
    (PrimFloat.mul (PrimFloat.div (float_of_Z c) (float_of_Z t))
       (float_of_Z 100)).

Definition number_eqb (a b : number) : bool :=
  match a, b with
  | Finite x, Finite y => x =? y
  | NaN, NaN => true
  | Infinity, Infinity => true
  | _, _ => false
  end.

(** The double computation and the exact formula give the same
    percentage for [c] of [t]. *)
Definition pct_agree (c t : nat) : bool :=
  number_eqb
    (round_ratio_pct_double (Z.of_nat c) (Z.of_nat t))
    (Finite (Math_round (inject_Z (100 * Z.of_nat c) / inject_Z (Z.of_nat t)))).

(** [xs.join(sep)] *)
Fixpoint join (sep : string) (xs : list string) : string :=
  match xs with
  | [] => ""
  | [x] => x
  | x :: rest => x +:+ sep +:+ join sep rest
  end.

(** [xs.indexOf(x)]: first position, [-1] when absent. *)
Definition indexOf (xs : list string) (x : string) : Z :=
  match list_find (λ y, y = x) xs with
  | Some (i, _) => Z.of_nat i
  | None => -1
  end.

(** Substring test, [hay.includes(needle)]. *)
Fixpoint includes (hay needle : string) : bool :=
  String.prefix needle hay ||
  match hay with
  | EmptyString => false
  | String _ rest => includes rest needle
  end.

End Js.

(** ** Stage identifiers and labels ([src/types/config.ts]) *)

Definition STAGE_ORDER : list string :=
  ["graph_traverser"; "chatml_converter"; "finetuner"; "evaluator"].

Definition STAGE_LABELS : gmap string string :=
  <["graph_traverser" := "Graph Traverser"]>
  (<["chatml_converter" := "ChatML Converter"]>
  (<["finetuner" := "FineTuner"]>
  (<["evaluator" := "Evaluator"]> ∅))).

(** [STAGE_LABELS[id] ?? id], for an [id] that is not the name of a member
    every object inherits ([toString], [constructor], ...): for those the
    program reads the inherited member instead of falling back to [id]. *)
Definition stage_label (id : string) : string :=
  Js.nullish (STAGE_LABELS !! id) id.

(** ** Data model *)

Inductive Status : Type := pending | running | completed | failed.

Global Instance Status_eq_dec : EqDecision Status.
Proof. solve_decision. Defined.

Record StageDetail : Type := mkStageDetail {
  sd_name : string;
  sd_status : Status;
  sd_progress : Z;
  sd_error : option string
}.

Record StageResult : Type := mkStageResult {
  sr_success : bool;
  sr_error : option string
}.

(** Live-channel payloads.  [Ev_other] stands for a payload whose [event]
    tag is none of the known ones. *)
Inductive WsEvent : Type :=
| Ev_run_start (run_id : string)
| Ev_pipeline_start (stages : option (list string))
| Ev_stage_start (stage : string)
| Ev_stage_end (stage : string) (success : bool) (error : option string)
| Ev_log (level logger message : string)
| Ev_done (success : bool) (results : option (list StageResult))
| Ev_error (message : string)
| Ev_other (tag : string).

Record ReconciledView : Type := mkView {
  stages : list StageDetail;
  overallProgress : Js.number;
  logs : list string
}.

(** ** Mode A: [stagesFromWsEvents] *)

Module ModeA.

(** The four locals of the function body. *)
Record Locals : Type := mkLocals {
  orderedStages : list string;
  stageDetails : list StageDetail;
  logLines : list string;
  completedCount : Z
}.

Definition pending_detail (id : string) : StageDetail :=
  {| sd_name := stage_label id; sd_status := pending;
     sd_progress := 0; sd_error := None |}.

Definition init (runOrder : list string) : Locals :=
  {| orderedStages := runOrder;
     stageDetails := pending_detail <$> runOrder;
     logLines := [];
     completedCount := 0 |}.

Definition push (line : string) (st : Locals) : Locals :=
  {| orderedStages := orderedStages st;
     stageDetails := stageDetails st;
     logLines := logLines st ++ [line];
     completedCount := completedCount st |}.

Definition stamp (ts : string) : string := "[" +:+ ts +:+ "] ".

(** The guard [idx >= 0 && idx < stageDetails.length]. *)
Definition in_range (idx : Z) (details : list StageDetail) : bool :=
  (0 <=? idx) && (idx <? Z.of_nat (length details)).

Definition started (stage : string) (d : StageDetail) : StageDetail :=
  {| sd_name := stage_label stage; sd_status := running;
     sd_progress := 0; sd_error := sd_error d |}.

Definition ended (stage : string) (success : bool) (err : option string)
    (d : StageDetail) : StageDetail :=
  {| sd_name := stage_label stage;
     sd_status := if success then completed else failed;
     sd_progress := if success then 100 else 0;
     sd_error := err |}.

Definition stage_end_line (stage : string) (success : bool)
    (err : option string) : string :=
  "[" +:+ (if success then "INFO" else "ERROR") +:+ "] Stage "
    +:+ (if success then "completed" else "failed") +:+ ": " +:+ stage
    +:+ (if Js.truthy err then " — " +:+ Js.nullish err "" else "").

(** One iteration of the [for] loop; [runOrder] is the function's
    argument and [ts] the stamp read at the top of the iteration. *)
Definition step (runOrder : list string) (ts : string) (ev : WsEvent)
    (st : Locals) : Locals :=
  match ev with
  | Ev_run_start _ =>
      push (stamp ts +:+ "[INFO] Run started (live updates via WebSocket)") st
  | Ev_pipeline_start stages =>
      let order := Js.nullish stages runOrder in
      {| orderedStages := order;
         stageDetails := pending_detail <$> order;
         logLines := logLines st ++
           [stamp ts +:+ "[INFO] Pipeline started: " +:+ Js.join " → " order];
         completedCount := completedCount st |}
  | Ev_stage_start stage =>
      let idx := Js.indexOf (orderedStages st) stage in
      let details :=
        if in_range idx (stageDetails st)
        then alter (started stage) (Z.to_nat idx) (stageDetails st)
        else stageDetails st in
      {| orderedStages := orderedStages st;
         stageDetails := details;
         logLines := logLines st ++
           [stamp ts +:+ "[INFO] Stage started: " +:+ stage];
         completedCount := completedCount st |}
  | Ev_stage_end stage success err =>
      let idx := Js.indexOf (orderedStages st) stage in
      let hit := in_range idx (stageDetails st) in
      {| orderedStages := orderedStages st;
         stageDetails :=
           if hit
           then alter (ended stage success err) (Z.to_nat idx) (stageDetails st)
           else stageDetails st;
         logLines := logLines st ++
           [stamp ts +:+ stage_end_line stage success err];
         completedCount :=
           if hit && success then completedCount st + 1
           else completedCount st |}
  | Ev_log level _ message =>
      push (stamp ts +:+ "[" +:+ level +:+ "] " +:+ message) st
  | Ev_done success _ =>
      push (stamp ts +:+ "[" +:+ (if success then "INFO" else "ERROR")
              +:+ "] Pipeline "
              +:+ (if success then "completed successfully." else "failed.")) st
  | Ev_error message =>
      push (stamp ts +:+ "[ERROR] " +:+ message) st
  | Ev_other _ => st
  end.

(** The loop: iteration [i] reads [clock i]. *)
Fixpoint loop (runOrder : list string) (clock : nat → string) (i : nat)
    (events : list WsEvent) (st : Locals) : Locals :=
  match events with
  | [] => st
  | ev :: rest =>
      loop runOrder clock (S i) rest (step runOrder (clock i) ev st)
  end.

Definition run (clock : nat → string) (events : list WsEvent)
    (runOrder : list string) : Locals :=
  loop runOrder clock 0%nat events (init runOrder).

(** [lastEv?.event === 'done' && lastEv.success] *)
Definition last_is_successful_done (events : list WsEvent) : bool :=
  match last events with
  | Some (Ev_done true _) => true
  | _ => false
  end.

Definition stagesFromWsEvents (clock : nat → string)
    (events : list WsEvent) (runOrder : list string) : ReconciledView :=
  let st := run clock events runOrder in
  let total := Js.or_one (Z.of_nat (length (stageDetails st))) in
  let overall :=
    if total =? 0 then Js.Finite 0
    else Js.round_ratio_pct_double (completedCount st) total in
  if last_is_successful_done events
  then {| stages := stageDetails st; overallProgress := Js.Finite 100;
          logs := logLines st |}
  else {| stages := stageDetails st; overallProgress := overall;
          logs := logLines st |}.

End ModeA.

(** ** Results of fallible calls *)

Inductive result (A : Type) : Type :=
| Ok (a : A)
| Throw (message : string).
Global Arguments Ok {A} a.
Global Arguments Throw {A} message.

(** ** Transport client ([src/api/client.ts]) *)

Record RunResponse : Type := mkRunResponse {
  rr_run_id : option string;
  rr_status : string;
  rr_message : option string
}.

Record RunResultResponse : Type := mkRunResult {
  run_id : string;
  status : string;
  success : bool;
  results : option (list StageResult);
  error : option string;
  run_stages : option (list string);
  current_stage : option string
}.

(** A parsed JSON body: its [detail] member, if it has one, and the body
    read at the type the caller expects. *)
Record JsonBody (A : Type) : Type := mkJsonBody {
  detail : option string;
  value : A
}.
Global Arguments mkJsonBody {A} detail value.
Global Arguments detail {A} j.
Global Arguments value {A} j.

(** What [fetch] resolved to.  [res.json()] either yields the parsed body
    or rejects with the parser's message ([inl]). *)
Record HttpResponse (A : Type) : Type := mkHttpResponse {
  ok : bool;
  http_status : nat;
  statusText : string;
  json : string + JsonBody A
}.
Global Arguments mkHttpResponse {A} ok http_status statusText json.
Global Arguments ok {A} h.
Global Arguments http_status {A} h.
Global Arguments statusText {A} h.
Global Arguments json {A} h.

Module Client.

Definition read_json {A} (res : HttpResponse A) : result A :=
  match json res with
  | inl msg => Throw msg
  | inr b => Ok (value b)
  end.

(** [runPipeline]: on a non-success response the body is read with the
    fallback [{ detail: res.statusText }]. *)
Definition runPipeline (res : HttpResponse RunResponse) : result RunResponse :=
  if negb (ok res) then
    let err_detail :=
      match json res with
      | inl _ => Some (statusText res)
      | inr b => detail b
      end in
    Throw (Js.or_else err_detail (statusText res))
  else read_json res.

(** [getRunStatus]: on a non-success response the body is read with the
    fallback [{}]. *)
Definition getRunStatus (res : HttpResponse RunResultResponse)
    : result RunResultResponse :=
  if negb (ok res) then
    let d :=
      match json res with
      | inl _ => None
      | inr b => detail b
      end in
    Throw (if Js.truthy d
           then pretty (http_status res) +:+ ": " +:+ Js.nullish d ""
           else statusText res)
  else read_json res.

(** *** [runPipelineViaWebSocket] *)

Inductive Callback : Type :=
| OnRunId (runId : string)
| OnEvent (payload : option WsEvent)
| OnDone (r : RunResultResponse)
| OnError (message : string).

Inductive Action : Type :=
| Call (cb : Callback)
| WsSend
| WsClose.

(** [ev.data] of an inbound message: text on which [JSON.parse] throws
    (with the given message), the JSON value [null] (reading its [event]
    member throws, with the given message), or an event object. *)
Inductive MessageData : Type :=
| Malformed (message : string)
| JsonNull (message : string)
| Payload (ev : WsEvent).

(** What can happen to a session: the four socket handlers, and a call of
    the returned close function. *)
Inductive Input : Type :=
| SocketOpen
| SocketMessage (data : MessageData)
| SocketError
| SocketClose
| CloseCall.

(** The two closure variables. *)
Record Session : Type := mkSession {
  closed : bool;
  runId : string
}.

Definition start : Session := {| closed := false; runId := "" |}.

Inductive completion : Type :=
| Normal
| Thrown.

(** [try { body } catch { /* ignore */ }] *)
Definition try_ignore (body : completion) : completion :=
  match body with
  | Normal => Normal
  | Thrown => Normal
  end.

(** The returned [close] function.  [ws_close_throws] says whether the
    socket's own [close()] throws. *)
Definition close (ws_close_throws : bool) (s : Session)
    : Session * list Action * completion :=
  if closed s then (s, [], Normal)
  else
    ({| closed := true; runId := runId s |}, [WsClose],
     try_ignore (if ws_close_throws then Thrown else Normal)).

Definition close_then (ws_close_throws : bool) (s : Session)
    (before : list Action) : Session * list Action :=
  let '(s', acts, _) := close ws_close_throws s in (s', before ++ acts).

Definition done_result (s : Session) (ok : bool)
    (res : option (list StageResult)) : RunResultResponse :=
  {| run_id := runId s;
     status := if ok then "completed" else "failed";
     success := ok;
     results := res;
     error := None;
     run_stages := None;
     current_stage := None |}.

Definition onmessage (ws_close_throws : bool) (data : MessageData)
    (s : Session) : Session * list Action :=
  if closed s then (s, [])
  else
    match data with
    | Malformed msg => close_then ws_close_throws s [Call (OnError msg)]
    | JsonNull msg =>
        close_then ws_close_throws s [Call (OnEvent None); Call (OnError msg)]
    | Payload ev =>
        match ev with
        | Ev_run_start id =>
            ({| closed := closed s; runId := id |},
             [Call (OnEvent (Some ev)); Call (OnRunId id)])
        | Ev_done ok res =>
            close_then ws_close_throws s
              [Call (OnEvent (Some ev)); Call (OnDone (done_result s ok res))]
        | Ev_error msg =>
            close_then ws_close_throws s
              [Call (OnEvent (Some ev)); Call (OnError msg)]
        | _ => (s, [Call (OnEvent (Some ev))])
        end
    end.

Definition onerror (ws_close_throws : bool) (s : Session)
    : Session * list Action :=
  if closed s then (s, [])
  else close_then ws_close_throws s [Call (OnError "WebSocket error")].

Definition onclose (ws_close_throws : bool) (s : Session)
    : Session * list Action :=
  if closed s then (s, []) else close_then ws_close_throws s [].

Definition handle (ws_close_throws : bool) (i : Input) (s : Session)
    : Session * list Action :=
  match i with
  | SocketOpen => (s, [WsSend])
  | SocketMessage data => onmessage ws_close_throws data s
  | SocketError => onerror ws_close_throws s
  | SocketClose => onclose ws_close_throws s
  | CloseCall => close_then ws_close_throws s []
  end.

(** A session: the inputs are handled one after the other (the scheduling
    is single-threaded) and the actions are collected in order. *)
Fixpoint session (ws_close_throws : bool) (inputs : list Input)
    (s : Session) : Session * list Action :=
  match inputs with
  | [] => (s, [])
  | i :: rest =>
      let '(s1, acts1) := handle ws_close_throws i s in
      let '(s2, acts2) := session ws_close_throws rest s1 in
      (s2, acts1 ++ acts2)
  end.

Definition runPipelineViaWebSocket (ws_close_throws : bool)
    (inputs : list Input) : list Action :=
  snd (session ws_close_throws inputs start).

Definition callbacks (acts : list Action) : list Callback :=
  omap (λ a, match a with Call cb => Some cb | _ => None end) acts.

Definition runIds (cbs : list Callback) : list string :=
  omap (λ cb, match cb with OnRunId id => Some id | _ => None end) cbs.

Definition is_terminal (cb : Callback) : bool :=
  match cb with
  | OnDone _ | OnError _ => true
  | _ => false
  end.

End Client.

(** ** Run submission, request/response mode
    ([handleRun] in [src/components/ConfigurePipeline.tsx]) *)

Module Submit.

(** The component state touched by [handleRun], and the calls of the
    [onRun] property. *)
Record State (Config : Type) : Type := mkState {
  error_text : option string;
  running_flag : bool;
  onRun_calls : list (string * Config)
}.
Global Arguments mkState {Config} error_text running_flag onRun_calls.
Global Arguments error_text {Config} s.
Global Arguments running_flag {Config} s.
Global Arguments onRun_calls {Config} s.

(** [handleRun] when no live channel is configured: [res] is what the
    POST resolved to. *)
Definition handleRun {Config : Type} (config : Config)
    (res : HttpResponse RunResponse) (s : State Config) : State Config :=
  (* setError(null); setRunning(true) *)
  let s0 := {| error_text := None; running_flag := true;
               onRun_calls := onRun_calls s |} in
  let s1 :=
    match Client.runPipeline res with
    | Ok r =>
        if Js.truthy (rr_run_id r)
        then {| error_text := error_text s0; running_flag := running_flag s0;
                onRun_calls :=
                  onRun_calls s0 ++ [(Js.nullish (rr_run_id r) "", config)] |}
        else {| error_text := Some (Js.or_else (rr_message r) "Run failed");
                running_flag := running_flag s0;
                onRun_calls := onRun_calls s0 |}
    | Throw msg =>
        {| error_text := Some msg; running_flag := running_flag s0;
           onRun_calls := onRun_calls s0 |}
    end in
  (* .finally(() => setRunning(false)) *)
  {| error_text := error_text s1; running_flag := false;
     onRun_calls := onRun_calls s1 |}.

End Submit.

(** ** Mode B: the polling callback of [MonitorProgress] *)

Module ModeB.

(** [formatPhase] *)
Definition formatPhase (res : RunResultResponse) : string :=
  let labels := stage_label <$> Js.nullish (run_stages res) [] in
  let phaseName :=
    if Js.truthy (current_stage res)
    then Some (stage_label (Js.nullish (current_stage res) ""))
    else None in
  if String.eqb (status res) "running" then
    if Js.truthy phaseName then
      "Phase: Running — " +:+ Js.nullish phaseName "" +:+
        (if (length labels =? 0)%nat then ""
         else " (" +:+ Js.join " → " labels +:+ ")")
    else
      "Phase: Running" +:+
        (if (length labels =? 0)%nat then ""
         else " — " +:+ Js.join " → " labels)
  else if String.eqb (status res) "completed" then "Phase: Completed"
  else if String.eqb (status res) "failed" then "Phase: Failed"
  else "Status: " +:+ status res.

(** [(res.results ?? []).filter((r) => r.success).length] *)
Definition succeeded (res : RunResultResponse) : nat :=
  length (filter (λ r, sr_success r = true) (Js.nullish (results res) [])).

(** [Math.max((res.results ?? []).length, res.stages?.length ?? 0, 1)] *)
Definition poll_total (res : RunResultResponse) : nat :=
  length (Js.nullish (results res) [])
    `max` (Js.nullish (length <$> run_stages res) 0%nat `max` 1)%nat.

Definition logMsg (res : RunResultResponse) : string :=
  let tail :=
    " — " +:+ formatPhase res +:+ " (" +:+ pretty (succeeded res) +:+ "/"
      +:+ pretty (poll_total res) +:+ " stages)" in
  if String.eqb (status res) "running"
  then "Poll: status=running" +:+ tail
  else "Poll: status=" +:+ status res +:+ tail.

(** The component state the callback reads and writes: three [useState]
    cells, the [lastLogMsgRef] cell and whether [pollRef] holds a timer;
    [onDone_calls] records the calls of the [onDone] property. *)
Record Monitor : Type := mkMonitor {
  m_stages : list StageDetail;
  m_overallProgress : Js.number;
  m_logs : list string;
  lastLogMsg : option string;
  polling : bool;
  onDone_calls : list RunResultResponse
}.

(** [addLog msg], the clock reading [ts] at the call. *)
Definition addLog (ts msg : string) (m : Monitor) : Monitor :=
  {| m_stages := m_stages m; m_overallProgress := m_overallProgress m;
     m_logs := m_logs m ++ [ts +:+ " " +:+ msg];
     lastLogMsg := lastLogMsg m; polling := polling m;
     onDone_calls := onDone_calls m |}.

(** [if (logMsg !== lastLogMsgRef.current) { ... }] *)
Definition log_poll_summary (ts : string) (res : RunResultResponse)
    (m : Monitor) : Monitor :=
  if decide (Some (logMsg res) = lastLogMsg m) then m
  else
    addLog ts (logMsg res)
      {| m_stages := m_stages m; m_overallProgress := m_overallProgress m;
         m_logs := m_logs m; lastLogMsg := Some (logMsg res);
         polling := polling m; onDone_calls := onDone_calls m |}.

(** The array handed to [setStages]; a position beyond [runOrder] has no
    name ([undefined]), rendered here as the empty text. *)
Definition result_details (runOrder : list string)
    (rs : list StageResult) : list StageDetail :=
  imap (λ i r,
    {| sd_name := Js.nullish (stage_label <$> runOrder !! i) "";
       sd_status := if sr_success r then completed else failed;
       sd_progress := if sr_success r then 100 else 0;
       sd_error := sr_error r |}) rs.

(** The argument of [setOverallProgress]. *)
Definition terminal_progress (res : RunResultResponse) : Js.number :=
  if String.eqb (status res) "completed" then Js.Finite 100
  else
    Js.round_ratio_pct (Z.of_nat (succeeded res))
      (Z.of_nat (Js.nullish (length <$> results res) 1%nat)).

Definition final_line (res : RunResultResponse) : string :=
  if String.eqb (status res) "completed" then "Pipeline completed."
  else "Pipeline failed: " +:+ Js.nullish (error res) "Unknown".

Definition is_terminal (res : RunResultResponse) : bool :=
  String.eqb (status res) "completed" || String.eqb (status res) "failed".

(** The terminal branch: stop the timer, publish the outcome. *)
Definition finish (runOrder : list string) (ts : string)
    (res : RunResultResponse) (m : Monitor) : Monitor :=
  addLog ts (final_line res)
    {| m_stages := result_details runOrder (Js.nullish (results res) []);
       m_overallProgress := terminal_progress res;
       m_logs := m_logs m; lastLogMsg := lastLogMsg m;
       polling := false;
       onDone_calls := onDone_calls m ++ [res] |}.

(** One run of the interval callback.  [fetched] is the outcome of
    [getRunStatus]; [ts1] and [ts2] are the clock readings of the first
    and of the second [addLog] call, when they happen. *)
Definition poll (runOrder : list string) (ts1 ts2 : string)
    (fetched : result RunResultResponse) (m : Monitor) : Monitor :=
  match fetched with
  | Throw msg => addLog ts1 ("Poll error: " +:+ msg) m
  | Ok res =>
      let m1 := log_poll_summary ts1 res m in
      if String.eqb (status res) "running" then m1
      else if is_terminal res then finish runOrder ts2 res m1
      else m1
  end.

(** A timer tick whose fetch resolves before anything else happens: the
    timer does not fire once the interval has been cleared.  Callbacks that
    overlap are the subject of [poll_step] below. *)
Definition tick (runOrder : list string) (ts1 ts2 : string)
    (fetched : result RunResultResponse) (m : Monitor) : Monitor :=
  if polling m then poll runOrder ts1 ts2 fetched m else m.

(** The state right after the effect has started polling for [runId]:
    one line logged at [ts], the dedup cell cleared, the timer set. *)
Definition watching (runOrder : list string) (ts runId : string) : Monitor :=
  addLog ts ("Watching run " +:+ runId +:+ ". Polling for status...")
    {| m_stages := []; m_overallProgress := Js.Finite 0; m_logs := [];
       lastLogMsg := None; polling := true; onDone_calls := [] |}.

End ModeB.


(** ** Vocabulary of the statements *)



(** The order [pending < running < {completed, failed}]. *)
Definition status_rank (s : Status) : nat :=
  match s with
  | pending => 0
  | running => 1
  | completed | failed => 2
  end.

Definition is_pipeline_start (ev : WsEvent) : bool :=
  match ev with
  | Ev_pipeline_start _ => true
  | _ => false
  end.

(** [ev] is a [stage_start] whose stage is found at an entry that is
    already [completed] or [failed]. *)
Definition restarts_finished (st : ModeA.Locals) (ev : WsEvent) : bool :=
  match ev with
  | Ev_stage_start stage =>
      let idx := Js.indexOf (ModeA.orderedStages st) stage in
      ModeA.in_range idx (ModeA.stageDetails st) &&
      match ModeA.stageDetails st !! Z.to_nat idx with
      | Some d => bool_decide (status_rank (sd_status d) = 2%nat)
      | None => false
      end
  | _ => false
  end.


(** The lines a poll logs after the summary of its snapshot. *)
Definition closing_lines (ts : string) (res : RunResultResponse) : list string :=
  if ModeB.is_terminal res then [ts +:+ " " +:+ ModeB.final_line res] else [].

(** Inputs after which the session is closed, when it was open. *)
Definition closes (i : Client.Input) : bool :=
  match i with
  | Client.SocketOpen => false
  | Client.SocketMessage (Client.Payload (Ev_done _ _)) => true
  | Client.SocketMessage (Client.Payload (Ev_error _)) => true
  | Client.SocketMessage (Client.Payload _) => false
  | Client.SocketMessage _ => true
  | Client.SocketError | Client.SocketClose | Client.CloseCall => true
  end.

(** The inputs that arrive before the session closes. *)
Fixpoint while_open (inputs : list Client.Input) : list Client.Input :=
  match inputs with
  | [] => []
  | i :: rest => if closes i then [] else i :: while_open rest
  end.

Definition run_start_ids (inputs : list Client.Input) : list string :=
  omap (λ i, match i with
             | Client.SocketMessage (Client.Payload (Ev_run_start id)) => Some id
             | _ => None
             end) inputs.

(** No callback follows an [onDone] or an [onError]. *)
Fixpoint quiet_after_terminal (cbs : list Client.Callback) : bool :=
  match cbs with
  | [] => true
  | cb :: rest =>
      if Client.is_terminal cb
      then match rest with [] => true | _ => false end
      else quiet_after_terminal rest
  end.

(** An empty JSON object read as a run snapshot: every member missing. *)
Definition empty_snapshot : RunResultResponse :=
  {| run_id := ""; status := ""; success := false; results := None;
     error := None; run_stages := None; current_stage := None |}.
(** ** Base address and live-channel address ([src/api/client.ts]) *)

Module Url.

(** [s.replace(/\/$/, '')]: one slash at the very end is removed. *)
Fixpoint strip_trailing_slash (s : string) : string :=
  match s with
  | EmptyString => EmptyString
  | String c rest =>
      match rest with
      | EmptyString => if String.eqb s "/" then EmptyString else s
      | _ => String c (strip_trailing_slash rest)
      end
  end.

Fixpoint drop_chars (n : nat) (s : string) : string :=
  match n, s with
  | S n', String _ rest => drop_chars n' rest
  | _, _ => s
  end.

(** [s.replace(/^http/, 'ws')] *)
Definition upgrade_scheme (s : string) : string :=
  if String.prefix "http" s then "ws" +:+ drop_chars 4 s else s.

(** [getBaseUrl]; [env] is [import.meta.env?.VITE_API_URL] and [trim] is
    [String.prototype.trim]. *)
Definition getBaseUrl (trim : string → string) (env : option string) : string :=
  match env with
  | Some e =>
      if negb (String.eqb e "") && negb (String.eqb (trim e) "")
      then strip_trailing_slash e
      else "/api"
  | None => "/api"
  end.

(** [getWebSocketUrl]; [location] is the page's [(protocol, host)] when
    there is one. *)
Definition getWebSocketUrl (apiBase : string)
    (location : option (string * string)) : string :=
  let base :=
    if String.eqb apiBase "" then
      match location with
      | Some (protocol, host) =>
          (if String.eqb protocol "https:" then "wss:" else "ws:")
            +:+ "//" +:+ host
      | None => "ws://localhost:8000"
      end
    else apiBase in
  upgrade_scheme base +:+ "/ws".

(** [getRunArtifactUrl] *)
Definition getRunArtifactUrl (apiBase runId artifactKey : string) : string :=
  apiBase +:+ "/pipelines/runs/" +:+ runId +:+ "/artifacts/" +:+ artifactKey.

End Url.

(** ** Stage selection and payload assembly
    ([src/components/ConfigurePipeline.tsx]) *)

Record DatasetConfig : Type := mkDataset {
  seed_prompts : list string;
  system_message : option string;
  include_metadata : bool;
  ds_output_path : option string
}.

Record GraphTraverserConfig (Traversal Neo4j Redis LLM : Type) : Type :=
  mkGraphTraverser {
  gt_output_path : option string;
  traversal : Traversal;
  dataset : DatasetConfig;
  neo4j : option Neo4j;
  redis : option Redis;
  llm : option LLM;
  llm_provider : option string
}.
Global Arguments mkGraphTraverser {_ _ _ _} _ _ _ _ _ _ _.
Global Arguments gt_output_path {_ _ _ _} _.
Global Arguments traversal {_ _ _ _} _.
Global Arguments dataset {_ _ _ _} _.
Global Arguments neo4j {_ _ _ _} _.
Global Arguments redis {_ _ _ _} _.
Global Arguments llm {_ _ _ _} _.
Global Arguments llm_provider {_ _ _ _} _.

Record ChatMLConverterConfig : Type := mkChatML {
  input_path : string;
  cm_output_path : string;
  prepare_for_finetuning : bool;
  chat_template : option string
}.

Record FineTunerConfig (Number : Type) : Type := mkFineTuner {
  model_name : string;
  model_type : string;
  train_data_path : string;
  eval_data_path : option string;
  ft_output_dir : string;
  max_seq_length : option Number;
  num_train_epochs : option Number;
  per_device_train_batch_size : option Number;
  learning_rate : option Number
}.
Global Arguments mkFineTuner {_} _ _ _ _ _ _ _ _ _.
Global Arguments model_name {_} _.
Global Arguments model_type {_} _.
Global Arguments train_data_path {_} _.
Global Arguments eval_data_path {_} _.
Global Arguments ft_output_dir {_} _.
Global Arguments max_seq_length {_} _.
Global Arguments num_train_epochs {_} _.
Global Arguments per_device_train_batch_size {_} _.
Global Arguments learning_rate {_} _.

Record PipelineConfigPayload (Traversal Neo4j Redis LLM Number : Type) : Type :=
  mkPayload {
  output_dir : option string;
  payload_run_stages : list string;
  graph_traverser : option (GraphTraverserConfig Traversal Neo4j Redis LLM);
  chatml_converter : option ChatMLConverterConfig;
  finetuner : option (FineTunerConfig Number);
  evaluator : option unit
}.
Global Arguments mkPayload {_ _ _ _ _} _ _ _ _ _ _.
Global Arguments output_dir {_ _ _ _ _} _.
Global Arguments payload_run_stages {_ _ _ _ _} _.
Global Arguments graph_traverser {_ _ _ _ _} _.
Global Arguments chatml_converter {_ _ _ _ _} _.
Global Arguments finetuner {_ _ _ _ _} _.
Global Arguments evaluator {_ _ _ _ _} _.

Module Configure.

(** The values of [GEMMA_3_MODELS]. *)
Definition GEMMA_3_MODELS : list string :=
  ["unsloth/gemma-3-270m-it"; "unsloth/gemma-3-1b-it"; "unsloth/gemma-3-4b-it"].

(** The initial value of the [selectedStages] cell. *)
Definition initial_selection : list string :=
  ["graph_traverser"; "chatml_converter"].

(** [prev.includes(id)] *)
Definition includes (xs : list string) (x : string) : bool :=
  bool_decide (x ∈ xs).

(** [toggleStage]: the new value of [selectedStages]. *)
Definition toggleStage (id : string) (prev : list string) : list string :=
  if String.eqb id "evaluator" then prev
  else if includes prev id then filter (λ s, s ≠ id) prev
  else prev ++ [id].

(** The comparator [STAGE_ORDER.indexOf(a) - STAGE_ORDER.indexOf(b)]. *)
Definition compare_stages (a b : string) : Z :=
  Js.indexOf STAGE_ORDER a - Js.indexOf STAGE_ORDER b.

(** [[...xs].sort(compare_stages)].  The sort of the language is stable,
    so its result is the one of a stable insertion sort: an element goes in
    front of the first later element it does not have to follow. *)
Fixpoint insert_stage (x : string) (sorted : list string) : list string :=
  match sorted with
  | [] => [x]
  | y :: rest =>
      if compare_stages x y <=? 0 then x :: sorted
      else y :: insert_stage x rest
  end.

Fixpoint sort_stages (xs : list string) : list string :=
  match xs with
  | [] => []
  | x :: rest => insert_stage x (sort_stages rest)
  end.

(** [buildConfig], from the four state cells it closes over. *)
Definition buildConfig {Traversal Neo4j Redis LLM Number : Type}
    (selectedStages : list string)
    (graphTraverser : GraphTraverserConfig Traversal Neo4j Redis LLM)
    (chatml : ChatMLConverterConfig)
    (finetuner : FineTunerConfig Number)
    : PipelineConfigPayload Traversal Neo4j Redis LLM Number :=
  {| output_dir := Some "./output";
     payload_run_stages := sort_stages selectedStages;
     graph_traverser :=
       if includes selectedStages "graph_traverser" then
         Some {| gt_output_path :=
                   Some (Js.or_else (gt_output_path graphTraverser)
                           "output/dataset.jsonl");
                 traversal := traversal graphTraverser;
                 dataset :=
                   {| seed_prompts :=
                        filter (λ p, p ≠ "")
                          (seed_prompts (dataset graphTraverser));
                      system_message := system_message (dataset graphTraverser);
                      include_metadata :=
                        include_metadata (dataset graphTraverser);
                      ds_output_path := ds_output_path (dataset graphTraverser) |};
                 neo4j := neo4j graphTraverser;
                 redis := redis graphTraverser;
                 llm := llm graphTraverser;
                 llm_provider := llm_provider graphTraverser |}
       else None;
     chatml_converter :=
       if includes selectedStages "chatml_converter" then Some chatml else None;
     finetuner :=
       if includes selectedStages "finetuner" then
         Some {| model_name :=
                   if bool_decide (model_name finetuner ∈ GEMMA_3_MODELS)
                   then model_name finetuner
                   else "unsloth/gemma-3-270m-it";
                 model_type := "gemma3";
                 train_data_path := train_data_path finetuner;
                 eval_data_path := eval_data_path finetuner;
                 ft_output_dir := ft_output_dir finetuner;
                 max_seq_length := max_seq_length finetuner;
                 num_train_epochs := num_train_epochs finetuner;
                 per_device_train_batch_size :=
                   per_device_train_batch_size finetuner;
                 learning_rate := learning_rate finetuner |}
       else None;
     evaluator := None |}.

End Configure.

(** ** Application state ([src/App.tsx]) and the live branch of [handleRun] *)

Module App.

Inductive TabId : Type := configure | monitor | results_tab.

Record State (Config : Type) : Type := mkState {
  activeTab : TabId;
  lastRunId : option string;
  lastResult : option RunResultResponse;
  config : option Config;
  wsEvents : list (option WsEvent)
}.
Global Arguments mkState {Config} _ _ _ _ _.
Global Arguments activeTab {Config} _.
Global Arguments lastRunId {Config} _.
Global Arguments lastResult {Config} _.
Global Arguments config {Config} _.
Global Arguments wsEvents {Config} _.

Definition initial {Config : Type} : State Config :=
  {| activeTab := configure; lastRunId := None; lastResult := None;
     config := None; wsEvents := [] |}.

(** [setWsEvents] with a new value or with an updater. *)
Definition setWsEvents {Config : Type}
    (f : list (option WsEvent) → list (option WsEvent)) (s : State Config)
    : State Config :=
  {| activeTab := activeTab s; lastRunId := lastRunId s;
     lastResult := lastResult s; config := config s;
     wsEvents := f (wsEvents s) |}.

Definition handleRun {Config : Type} (runId : string) (cfg : Config)
    (s : State Config) : State Config :=
  {| activeTab := monitor; lastRunId := Some runId;
     lastResult := lastResult s; config := Some cfg; wsEvents := [] |}.

Definition handleDone {Config : Type} (result : RunResultResponse)
    (s : State Config) : State Config :=
  {| activeTab := results_tab; lastRunId := lastRunId s;
     lastResult := Some result; config := config s;
     wsEvents := wsEvents s |}.

(** What each callback that [ConfigurePipeline.handleRun] hands to
    [runPipelineViaWebSocket] does to the application state ([onError]
    only writes cells of [ConfigurePipeline] itself). *)
Definition live_callback {Config : Type} (cfg : Config)
    (cb : Client.Callback) (s : State Config) : State Config :=
  match cb with
  | Client.OnRunId id => handleRun id cfg s
  | Client.OnEvent e => setWsEvents (λ prev, prev ++ [e]) s
  | Client.OnDone r => handleDone r s
  | Client.OnError _ => s
  end.

(** The live branch of [ConfigurePipeline.handleRun]: the event log is
    cleared, then the session's callbacks run in the order they are made. *)
Definition live_run {Config : Type} (cfg : Config) (ws_close_throws : bool)
    (inputs : list Client.Input) (s : State Config) : State Config :=
  foldl (λ acc cb, live_callback cfg cb acc)
    (setWsEvents (λ _, []) s)
    (Client.callbacks (Client.runPipelineViaWebSocket ws_close_throws inputs)).

End App.

(** ** Sequences of timer ticks *)

(** The interval callback run once per element: the two clock readings and
    the outcome of the fetch. *)
Fixpoint ticks (runOrder : list string)
    (polls : list (string * string * result RunResultResponse))
    (m : ModeB.Monitor) : ModeB.Monitor :=
  match polls with
  | [] => m
  | (ts1, ts2, fetched) :: rest =>
      ticks runOrder rest (ModeB.tick runOrder ts1 ts2 fetched m)
  end.

(** The first snapshot of a sequence of polls that is [completed] or
    [failed]. *)
Fixpoint first_terminal
    (polls : list (string * string * result RunResultResponse))
    : option RunResultResponse :=
  match polls with
  | [] => None
  | (_, _, Ok res) :: rest =>
      if ModeB.is_terminal res then Some res else first_terminal rest
  | (_, _, Throw _) :: rest => first_terminal rest
  end.

(** ** Interval callbacks that overlap *)

(** What can happen to the polling loop: the timer fires, which starts a
    callback that awaits its fetch; or the fetch of a callback in flight
    resolves and the rest of that callback runs.  Clearing the interval
    stops the timer; it does not stop the callbacks already in flight. *)
Inductive PollStep : Type :=
| TimerFires
| FetchResolves (ts1 ts2 : string) (fetched : result RunResultResponse).

Record Poller : Type := mkPoller {
  monitor : ModeB.Monitor;
  in_flight : nat
}.

Definition poll_step (runOrder : list string) (s : PollStep) (p : Poller)
    : Poller :=
  match s with
  | TimerFires =>
      if ModeB.polling (monitor p)
      then {| monitor := monitor p; in_flight := S (in_flight p) |}
      else p
  | FetchResolves ts1 ts2 fetched =>
      match in_flight p with
      | O => p
      | S n =>
          {| monitor := ModeB.poll runOrder ts1 ts2 fetched (monitor p);
             in_flight := n |}
      end
  end.

Fixpoint run_schedule (runOrder : list string) (sched : list PollStep)
    (p : Poller) : Poller :=
  match sched with
  | [] => p
  | s :: rest => run_schedule runOrder rest (poll_step runOrder s p)
  end.

Definition terminal_outcome (fetched : result RunResultResponse) : bool :=
  match fetched with
  | Ok res => ModeB.is_terminal res
  | Throw _ => false
  end.

(** The fetch outcomes that reach a callback, given whether the timer is
    set and how many callbacks are in flight at the start. *)
Fixpoint handled_outcomes (timer_set : bool) (pending : nat)
    (sched : list PollStep) : list (result RunResultResponse) :=
  match sched with
  | [] => []
  | TimerFires :: rest =>
      handled_outcomes timer_set (if timer_set then S pending else pending) rest
  | FetchResolves _ _ fetched :: rest =>
      match pending with
      | O => handled_outcomes timer_set O rest
      | S n =>
          fetched ::
          handled_outcomes (timer_set && negb (terminal_outcome fetched)) n rest
      end
  end.

Definition terminal_snapshots (outcomes : list (result RunResultResponse))
    : list RunResultResponse :=
  omap (λ fetched,
          match fetched with
          | Ok res => if ModeB.is_terminal res then Some res else None
          | Throw _ => None
          end) outcomes.

(** The schedule in which every fetch resolves before the timer fires
    again. *)
Fixpoint sequential
    (polls : list (string * string * result RunResultResponse))
    : list PollStep :=
  match polls with
  | [] => []
  | (ts1, ts2, fetched) :: rest =>
      TimerFires :: FetchResolves ts1 ts2 fetched :: sequential rest
  end.

(** ** More vocabulary *)

(** Events for which the fold has a branch. *)
Definition known_event (ev : WsEvent) : bool :=
  match ev with
  | Ev_other _ => false
  | _ => true
  end.

Definition successful_stage_end (ev : WsEvent) : bool :=
  match ev with
  | Ev_stage_end _ true _ => true
  | _ => false
  end.

Definition completed_entries (details : list StageDetail) : nat :=
  length (filter (λ d, sd_status d = completed) details).

(** The inputs a session handles before it is closed: all of them up to and
    including the first one that closes it. *)
Fixpoint handled (inputs : list Client.Input) : list Client.Input :=
  match inputs with
  | [] => []
  | i :: rest => if closes i then [i] else i :: handled rest
  end.

(** The argument [onEvent] is called with for an input, if it is. *)
Definition event_of (i : Client.Input) : option (option WsEvent) :=
  match i with
  | Client.SocketMessage (Client.Payload ev) => Some (Some ev)
  | Client.SocketMessage (Client.JsonNull _) => Some None
  | _ => None
  end.

Definition onEvent_args (cbs : list Client.Callback) : list (option WsEvent) :=
  omap (λ cb, match cb with Client.OnEvent e => Some e | _ => None end) cbs.

Definition is_run_start (e : option WsEvent) : bool :=
  match e with
  | Some (Ev_run_start _) => true
  | _ => false
  end.

(** The part of an event list that follows its last [run_start]. *)
Fixpoint after_last_run_start (es : list (option WsEvent))
    : list (option WsEvent) :=
  match es with
  | [] => []
  | e :: rest =>
      if existsb is_run_start rest then after_last_run_start rest
      else if is_run_start e then rest
      else e :: rest
  end.

Definition is_ws_close (a : Client.Action) : bool :=
  match a with
  | Client.WsClose => true
  | _ => false
  end.

(** How one more [onEvent] argument changes the recorded event log: a
    [run_start] is appended and the log is then cleared by the run
    callback; any other event is appended. *)
Definition log_step (acc : list (option WsEvent)) (e : option WsEvent)
    : list (option WsEvent) :=
  if is_run_start e then [] else acc ++ [e].

(** The [done] message a session handles, if it handles one. *)
Fixpoint done_received (inputs : list Client.Input)
    : option (bool * option (list StageResult)) :=
  match inputs with
  | [] => None
  | i :: rest =>
      match i with
      | Client.SocketMessage (Client.Payload (Ev_done ok res)) => Some (ok, res)
      | _ => if closes i then None else done_received rest
      end
  end.

(** The callbacks an open session makes for one input. *)
Definition callbacks_for (s : Client.Session) (i : Client.Input)
    : list Client.Callback :=
  match i with
  | Client.SocketMessage (Client.Malformed msg) => [Client.OnError msg]
  | Client.SocketMessage (Client.JsonNull msg) =>
      [Client.OnEvent None; Client.OnError msg]
  | Client.SocketMessage (Client.Payload ev) =>
      Client.OnEvent (Some ev) ::
      match ev with
      | Ev_run_start id => [Client.OnRunId id]
      | Ev_done ok res => [Client.OnDone (Client.done_result s ok res)]
      | Ev_error msg => [Client.OnError msg]
      | _ => []
      end
  | Client.SocketError => [Client.OnError "WebSocket error"]
  | _ => []
  end.

(** [a] does not come after [b] in the canonical stage order. *)
Definition canonical_before (a b : string) : Prop :=
  Js.indexOf STAGE_ORDER a <= Js.indexOf STAGE_ORDER b.

(** The selection after a sequence of clicks on stage buttons. *)
Definition selection_after (clicks : list string) : list string :=
  foldl (λ sel id, Configure.toggleStage id sel) Configure.initial_selection clicks.

(** The entry a finished stage ends up with. *)
Definition stage_outcome (id : string) (r : StageResult) : StageDetail :=
  {| sd_name := stage_label id;
     sd_status := if sr_success r then completed else failed;
     sd_progress := if sr_success r then 100 else 0;
     sd_error := sr_error r |}.

(** The stage events of a run whose stages start and end one after the
    other, in order, with the given results. *)
Fixpoint reported (ids : list string) (rs : list StageResult) : list WsEvent :=
  match ids, rs with
  | id :: ids', r :: rs' =>
      Ev_stage_start id :: Ev_stage_end id (sr_success r) (sr_error r)
        :: reported ids' rs'
  | _, _ => []
  end.

(** ** Properties of the Mode A fold *)

Section ModeA_facts.

Import ModeA.

Lemma or_one_max (n : nat) : Js.or_one (Z.of_nat n) = Z.max (Z.of_nat n) 1.
Proof.
  unfold Js.or_one. destruct (Z.eqb_spec (Z.of_nat n) 0) as [E|E]; lia.
Qed.

Lemma number_eqb_eq (a b : Js.number) : Js.number_eqb a b = true → a = b.
Proof.
  destruct a as [x| |], b as [y| |]; simpl; try done.
  intros H. apply Z.eqb_eq in H. by subst.
Qed.

(** Checked by running both computations on every pair of the range. *)
Lemma pct_agree_small :
  forallb (λ t, forallb (λ c, Js.pct_agree c t) (seq 0 101)) (seq 1 39) = true.
Proof. vm_compute. reflexivity. Qed.

Lemma round_ratio_pct_double_small (c t : Z) :
  1 <= t <= 39 → 0 <= c <= 100 →
  Js.round_ratio_pct_double c t =
    Js.Finite (Js.Math_round (inject_Z (100 * c) / inject_Z t)).
Proof.
  intros Ht Hc.
  pose proof pct_agree_small as H. rewrite forallb_forall in H.
  specialize (H (Z.to_nat t)). rewrite forallb_forall in H.
  assert (Hin_t : In (Z.to_nat t) (seq 1 39)) by (apply in_seq; lia).
  assert (Hin_c : In (Z.to_nat c) (seq 0 101)) by (apply in_seq; lia).
  specialize (H Hin_t (Z.to_nat c) Hin_c).
  unfold Js.pct_agree in H. rewrite !Z2Nat.id in H by lia.
  by apply number_eqb_eq.
Qed.

Lemma step_counter_nonneg runOrder ts ev st :
  0 <= completedCount st → 0 <= completedCount (step runOrder ts ev st).
Proof.
  intros H.
  destruct ev as [id|sts|stage|stage ok err|lvl lg msg|ok res|msg|tag];
    simpl; try done.
  destruct (in_range _ _ && ok); lia.
Qed.

Lemma loop_counter_nonneg runOrder clock evs : ∀ i st,
  0 <= completedCount st →
  0 <= completedCount (loop runOrder clock i evs st).
Proof.
  induction evs as [|ev evs IH]; intros i st H; simpl; [done|].
  by apply IH, step_counter_nonneg.
Qed.

Lemma loop_app runOrder clock i evs1 evs2 st :
  loop runOrder clock i (evs1 ++ evs2) st =
    loop runOrder clock (i + length evs1)%nat evs2
      (loop runOrder clock i evs1 st).
Proof.
  revert i st. induction evs1 as [|ev evs1 IH]; intros i st; simpl.
  - by rewrite Nat.add_0_r.
  - rewrite IH. f_equal. lia.
Qed.

Lemma last_is_successful_done_snoc evs ok res :
  last_is_successful_done (evs ++ [Ev_done ok res]) = ok.
Proof.
  unfold last_is_successful_done. rewrite last_snoc. by destruct ok.
Qed.

End ModeA_facts.

(** C1, as stated: the overall progress is
    [round (100 * completedCount / max stageCount 1)].  After a
    [pipeline_start] announcing 40 stages and 23 successful [stage_end]
    events, the program's double product [(23 / 40) * 100] lies just below
    57.5, so the view shows 57, while the formula gives 58. *)
Lemma C1_23_of_40_rounds_to_57 :
  let order := (pretty : nat → string) <$> seq 0 40 in
  let events :=
    Ev_pipeline_start (Some order)
      :: ((λ n : nat, Ev_stage_end (pretty n) true None) <$> seq 0 23) in
  let st := ModeA.run (λ _, "10:00:00") events ["graph_traverser"] in
  let v := ModeA.stagesFromWsEvents (λ _, "10:00:00") events ["graph_traverser"] in
  ModeA.completedCount st = 23 ∧
  length (ModeA.stageDetails st) = 40%nat ∧
  ModeA.last_is_successful_done events = false ∧
  overallProgress v = Js.Finite 57 ∧
  Js.Math_round (inject_Z (100 * 23) / inject_Z (Z.max 40 1)) = 58 ∧
  overallProgress v ≠
    Js.Finite (Js.Math_round
      (inject_Z (100 * ModeA.completedCount st) /
       inject_Z (Z.max (Z.of_nat (length (ModeA.stageDetails st))) 1))).
Proof. vm_compute. repeat split. discriminate. Qed.

(** C1, amended.  The overall progress of the live fold is [Math.round] of
    the double-precision product [(completedCount / max stageCount 1) * 100],
    and is forced to 100 when the last event is a successful [done]; for at
    most 39 stages and a counter of at most 100 it is
    [round (100 * completedCount / max stageCount 1)]; in particular any log
    ending in two successful [stage_end] events followed by a successful
    [done], over a two-stage order, yields exactly 100. *)
Theorem C1_overall_progress (clock : nat → string) (events : list WsEvent)
    (runOrder : list string) :
  let st := ModeA.run clock events runOrder in
  let n := Z.of_nat (length (ModeA.stageDetails st)) in
  overallProgress (ModeA.stagesFromWsEvents clock events runOrder) =
    (if ModeA.last_is_successful_done events then Js.Finite 100
     else Js.round_ratio_pct_double (ModeA.completedCount st) (Z.max n 1))
  ∧ (n <= 39 → ModeA.completedCount st <= 100 →
     overallProgress (ModeA.stagesFromWsEvents clock events runOrder) =
       (if ModeA.last_is_successful_done events then Js.Finite 100
        else Js.Finite (Js.Math_round
               (inject_Z (100 * ModeA.completedCount st) /
                inject_Z (Z.max n 1)))))
  ∧ ∀ (a b s1 s2 : string) (e1 e2 : option string)
      (res : option (list StageResult)),
      overallProgress
        (ModeA.stagesFromWsEvents clock
           (events ++ [Ev_stage_end a true e1; Ev_stage_end b true e2;
                       Ev_done true res])
           [s1; s2]) = Js.Finite 100.
Proof.
  cbv zeta.
  assert (H1 : overallProgress (ModeA.stagesFromWsEvents clock events runOrder) =
    (if ModeA.last_is_successful_done events then Js.Finite 100
     else Js.round_ratio_pct_double
            (ModeA.completedCount (ModeA.run clock events runOrder))
            (Z.max (Z.of_nat (length (ModeA.stageDetails
                                 (ModeA.run clock events runOrder)))) 1))).
  { unfold ModeA.stagesFromWsEvents.
    destruct (ModeA.last_is_successful_done events); [done|].
    cbn [overallProgress]. rewrite or_one_max.
    destruct (Z.eqb_spec (Z.max (Z.of_nat (length (ModeA.stageDetails
      (ModeA.run clock events runOrder)))) 1) 0) as [E|E]; [lia|done]. }
  split; [exact H1|]. split.
  - intros Hn Hc. rewrite H1.
    destruct (ModeA.last_is_successful_done events); [done|].
    apply round_ratio_pct_double_small; [lia|].
    split; [|done]. by apply loop_counter_nonneg.
  - intros a b s1 s2 e1 e2 res. unfold ModeA.stagesFromWsEvents.
    replace (events ++ [Ev_stage_end a true e1; Ev_stage_end b true e2;
                        Ev_done true res])
      with ((events ++ [Ev_stage_end a true e1; Ev_stage_end b true e2])
              ++ [Ev_done true res]) by (by rewrite <- app_assoc).
    by rewrite last_is_successful_done_snoc.
Qed.

Lemma C1_overall_progress_witness :
  overallProgress
    (ModeA.stagesFromWsEvents (λ _, "10:00:00")
       [Ev_stage_start "graph_traverser"; Ev_stage_end "graph_traverser" true None]
       ["graph_traverser"; "chatml_converter"; "finetuner"])
  = Js.Finite 33.
Proof.
  destruct (C1_overall_progress (λ _, "10:00:00")
              [Ev_stage_start "graph_traverser";
               Ev_stage_end "graph_traverser" true None]
              ["graph_traverser"; "chatml_converter"; "finetuner"])
    as (_ & H & _).
  rewrite H.
  - vm_compute. reflexivity.
  - vm_compute. discriminate.
  - vm_compute. discriminate.
Defined.

Example live_success_run :
  let v := ModeA.stagesFromWsEvents (λ _, "12:00:00")
    [Ev_run_start "r1";
     Ev_pipeline_start (Some ["graph_traverser"; "chatml_converter"]);
     Ev_stage_start "graph_traverser";
     Ev_stage_end "graph_traverser" true None;
     Ev_stage_start "chatml_converter";
     Ev_stage_end "chatml_converter" true None;
     Ev_done true None]
    ["graph_traverser"; "chatml_converter"] in
  sd_status <$> stages v = [completed; completed] ∧
  sd_name <$> stages v = ["Graph Traverser"; "ChatML Converter"] ∧
  overallProgress v = Js.Finite 100 ∧ length (logs v) = 7%nat.
Proof. vm_compute. done. Qed.

Example progress_one_of_three :
  overallProgress (ModeA.stagesFromWsEvents (λ _, "12:00:00")
    [Ev_stage_end "a" true None] ["a"; "b"; "c"]) = Js.Finite 33.
Proof. vm_compute. done. Qed.

(** *** The stage list of the view, and the effect of one more event *)

Section ModeA_step.

Import ModeA.

Lemma stages_view clock events runOrder :
  stages (stagesFromWsEvents clock events runOrder) =
    stageDetails (run clock events runOrder).
Proof.
  unfold stagesFromWsEvents.
  by destruct (last_is_successful_done events).
Qed.

Lemma logs_view clock events runOrder :
  logs (stagesFromWsEvents clock events runOrder) =
    logLines (run clock events runOrder).
Proof.
  unfold stagesFromWsEvents.
  by destruct (last_is_successful_done events).
Qed.

Lemma run_snoc clock events runOrder ev :
  run clock (events ++ [ev]) runOrder =
    step runOrder (clock (length events)) ev (run clock events runOrder).
Proof. unfold run. by rewrite loop_app. Qed.

Lemma indexOf_absent (xs : list string) (x : string) :
  x ∉ xs → Js.indexOf xs x = -1.
Proof.
  intros Hx. unfold Js.indexOf.
  destruct (list_find (λ y, y = x) xs) as [[i y]|] eqn:E; [|done].
  apply list_find_Some in E as (Hi & -> & _).
  exfalso. apply Hx. by eapply list_elem_of_lookup_2.
Qed.

Lemma in_range_absent (xs : list string) (x : string) details :
  x ∉ xs → in_range (Js.indexOf xs x) details = false.
Proof. intros Hx. by rewrite indexOf_absent. Qed.

End ModeA_step.

(** *** Replays under two clocks *)

Section ModeA_replay.

Import ModeA.

Variables (runOrder : list string) (clock1 clock2 : nat → string).





End ModeA_replay.




(** C3, as stated: one more event never moves a status backward.  A
    [stage_start] for a stage that already completed sets it back to
    [running]. *)
Lemma C3_stage_start_reverts_completed :
  let before :=
    ModeA.stagesFromWsEvents (λ _, "10:00:00")
      [Ev_stage_start "finetuner"; Ev_stage_end "finetuner" true None]
      ["finetuner"] in
  let after :=
    ModeA.stagesFromWsEvents (λ _, "10:00:00")
      ([Ev_stage_start "finetuner"; Ev_stage_end "finetuner" true None]
         ++ [Ev_stage_start "finetuner"])
      ["finetuner"] in
  sd_status <$> stages before = [completed] ∧
  sd_status <$> stages after = [running] ∧
  ¬ (∀ i d d', stages before !! i = Some d → stages after !! i = Some d' →
       (status_rank (sd_status d) ≤ status_rank (sd_status d'))%nat).
Proof.
  vm_compute. repeat split.
  intros H. specialize (H 0%nat _ _ eq_refl eq_refl). vm_compute in H. lia.
Qed.

(** C3, amended.  Extending the event sequence by one event that is neither
    a [pipeline_start] (which resets every entry to [pending]) nor a
    [stage_start] naming a stage already [completed] or [failed] never moves
    any stage's status backward, and keeps the number of entries. *)
Theorem C3_status_forward (clock : nat → string) (events : list WsEvent)
    (runOrder : list string) (ev : WsEvent) :
  is_pipeline_start ev = false →
  restarts_finished (ModeA.run clock events runOrder) ev = false →
  let before := stages (ModeA.stagesFromWsEvents clock events runOrder) in
  let after :=
    stages (ModeA.stagesFromWsEvents clock (events ++ [ev]) runOrder) in
  length after = length before ∧
  ∀ (i : nat) (d d' : StageDetail),
    before !! i = Some d → after !! i = Some d' →
    (status_rank (sd_status d) ≤ status_rank (sd_status d'))%nat.
Proof.
  intros Hps Hrf. simpl. rewrite !stages_view, run_snoc.
  set (st := ModeA.run clock events runOrder) in *.
  destruct ev as [id|sts|stage|stage ok err|lvl lg msg|ok res|msg|tag];
    simpl in *; try discriminate; try (split; [done|]);
    try (intros i d d' H1 H2; rewrite H1 in H2; by inversion H2).
  - (* stage_start *)
    destruct (ModeA.in_range _ _) eqn:Hin; simpl in *.
    + split; [by rewrite length_alter|].
      intros i d d' H1 H2.
      destruct (decide (Z.to_nat (Js.indexOf (ModeA.orderedStages st) stage) = i))
        as [<-|Hne].
      * rewrite H1 in Hrf.
        rewrite list_lookup_alter_eq, H1 in H2. inversion H2; subst d'. simpl.
        apply bool_decide_eq_false in Hrf.
        destruct (sd_status d); simpl in *; lia.
      * rewrite list_lookup_alter_ne in H2 by done.
        rewrite H1 in H2. by inversion H2.
    + split; [done|]. intros i d d' H1 H2. rewrite H1 in H2. by inversion H2.
  - (* stage_end *)
    destruct (ModeA.in_range _ _) eqn:Hin; simpl in *.
    + split; [by rewrite length_alter|].
      intros i d d' H1 H2.
      destruct (decide (Z.to_nat (Js.indexOf (ModeA.orderedStages st) stage) = i))
        as [<-|Hne].
      * rewrite list_lookup_alter_eq, H1 in H2. inversion H2; subst d'. simpl.
        destruct ok, (sd_status d); simpl; lia.
      * rewrite list_lookup_alter_ne in H2 by done.
        rewrite H1 in H2. by inversion H2.
    + split; [done|]. intros i d d' H1 H2. rewrite H1 in H2. by inversion H2.
Qed.

Lemma C3_status_forward_witness :
  let before :=
    stages (ModeA.stagesFromWsEvents (λ _, "10:00:00")
              [Ev_stage_start "finetuner"] ["finetuner"]) in
  let after :=
    stages (ModeA.stagesFromWsEvents (λ _, "10:00:00")
              ([Ev_stage_start "finetuner"]
                 ++ [Ev_stage_end "finetuner" false (Some "out of memory")])
              ["finetuner"]) in
  length after = length before ∧
  ∀ (i : nat) (d d' : StageDetail),
    before !! i = Some d → after !! i = Some d' →
    (status_rank (sd_status d) ≤ status_rank (sd_status d'))%nat.
Proof.
  apply (C3_status_forward (λ _, "10:00:00") [Ev_stage_start "finetuner"]
           ["finetuner"] (Ev_stage_end "finetuner" false (Some "out of memory")));
    reflexivity.
Defined.

(** C4. A [stage_start] or [stage_end] naming a stage absent from the
    current order leaves every StageDetail entry, the order and the
    completed-stage counter unchanged, and appends exactly one line to the
    transcript. *)
Theorem C4_unknown_stage_ignored (clock : nat → string)
    (events : list WsEvent) (runOrder : list string) (stage : string)
    (ev : WsEvent) :
  stage ∉ ModeA.orderedStages (ModeA.run clock events runOrder) →
  (ev = Ev_stage_start stage ∨
   ∃ ok err, ev = Ev_stage_end stage ok err) →
  let st := ModeA.run clock events runOrder in
  let st' := ModeA.run clock (events ++ [ev]) runOrder in
  let v := ModeA.stagesFromWsEvents clock events runOrder in
  let v' := ModeA.stagesFromWsEvents clock (events ++ [ev]) runOrder in
  ModeA.stageDetails st' = ModeA.stageDetails st ∧
  ModeA.orderedStages st' = ModeA.orderedStages st ∧
  ModeA.completedCount st' = ModeA.completedCount st ∧
  stages v' = stages v ∧
  ∃ line : string, logs v' = logs v ++ [line].
Proof.
  intros Habs Hev. simpl. rewrite !stages_view, !logs_view, run_snoc.
  set (st := ModeA.run clock events runOrder) in *.
  destruct Hev as [->|(ok & err & ->)]; simpl;
    rewrite (in_range_absent _ _ _ Habs); simpl;
    repeat split; eauto.
Qed.

Lemma C4_unknown_stage_witness :
  let evs := [Ev_pipeline_start (Some ["graph_traverser"; "finetuner"]);
              Ev_stage_end "graph_traverser" true None] in
  let v := ModeA.stagesFromWsEvents (λ _, "10:00:00") evs ["graph_traverser"] in
  let v' := ModeA.stagesFromWsEvents (λ _, "10:00:00")
              (evs ++ [Ev_stage_end "evaluator" true None]) ["graph_traverser"] in
  stages v' = stages v ∧ ∃ line : string, logs v' = logs v ++ [line].
Proof.
  destruct (C4_unknown_stage_ignored (λ _, "10:00:00")
              [Ev_pipeline_start (Some ["graph_traverser"; "finetuner"]);
               Ev_stage_end "graph_traverser" true None]
              ["graph_traverser"] "evaluator"
              (Ev_stage_end "evaluator" true None))
    as (_ & _ & _ & Hs & Hl).
  - vm_compute. intros H. repeat (apply elem_of_cons in H as [H|H]; [discriminate|]).
    by apply elem_of_nil in H.
  - right. by exists true, None.
  - split; [exact Hs | exact Hl].
Defined.

(** ** Properties of the polling callback *)

Section ModeB_facts.

Import ModeB.

Lemma lastLogMsg_summary ts res m :
  lastLogMsg (log_poll_summary ts res m) = Some (logMsg res).
Proof.
  unfold log_poll_summary. by destruct (decide _) as [E|E].
Qed.

Lemma logs_summary ts res m :
  m_logs (log_poll_summary ts res m) =
    if decide (Some (logMsg res) = lastLogMsg m) then m_logs m
    else m_logs m ++ [ts +:+ " " +:+ logMsg res].
Proof.
  unfold log_poll_summary. by destruct (decide _).
Qed.


Lemma is_terminal_running res :
  String.eqb (status res) "running" = true → is_terminal res = false.
Proof.
  intros H. apply String.eqb_eq in H. unfold is_terminal. by rewrite H.
Qed.

Lemma poll_ok runOrder ts1 ts2 res m :
  lastLogMsg (poll runOrder ts1 ts2 (Ok res) m) = Some (logMsg res) ∧
  m_logs (poll runOrder ts1 ts2 (Ok res) m) =
    m_logs (log_poll_summary ts1 res m) ++ closing_lines ts2 res ∧
  polling (poll runOrder ts1 ts2 (Ok res) m) =
    polling m && negb (is_terminal res).
Proof.
  unfold poll, closing_lines.
  destruct (String.eqb (status res) "running") eqn:Hrun.
  - rewrite (is_terminal_running _ Hrun), app_nil_r, andb_true_r.
    split; [apply lastLogMsg_summary|]. split; [done|].
    unfold log_poll_summary. by destruct (decide _).
  - destruct (is_terminal res) eqn:Hterm; simpl.
    + rewrite lastLogMsg_summary, andb_false_r. done.
    + rewrite app_nil_r, andb_true_r.
      split; [apply lastLogMsg_summary|]. split; [done|].
      unfold log_poll_summary. by destruct (decide _).
Qed.

(** A snapshot whose summary equals that of a running snapshot is not
    terminal: the summary starts with the status. *)
Lemma same_summary_as_running r1 r2 :
  status r1 = "running" → logMsg r2 = logMsg r1 → is_terminal r2 = false.
Proof.
  intros Hrun Heq. unfold logMsg in Heq. rewrite Hrun in Heq. simpl in Heq.
  unfold is_terminal.
  destruct (String.eqb_spec (status r2) "completed") as [E|_].
  { rewrite E in Heq. simpl in Heq. discriminate. }
  destruct (String.eqb_spec (status r2) "failed") as [E|_]; [|done].
  rewrite E in Heq. simpl in Heq. discriminate.
Qed.

End ModeB_facts.

(** C5. For two consecutive polls, the second appends no summary line when
    its summary text equals the one logged last, and appends exactly its
    summary line when the text differs; two identical summaries in a row
    leave one line for the pair. *)
Theorem C5_poll_dedup (runOrder : list string) (t1 t1' t2 t2' : string)
    (r1 r2 : RunResultResponse) (m : ModeB.Monitor) :
  ModeB.polling m = true →
  ModeB.is_terminal r1 = false →
  let m1 := ModeB.tick runOrder t1 t1' (Ok r1) m in
  let m2 := ModeB.tick runOrder t2 t2' (Ok r2) m1 in
  (ModeB.logMsg r2 = ModeB.logMsg r1 →
     ModeB.m_logs m2 = ModeB.m_logs m1 ++ closing_lines t2' r2) ∧
  (ModeB.logMsg r2 ≠ ModeB.logMsg r1 →
     ModeB.m_logs m2 =
       ModeB.m_logs m1 ++ [t2 +:+ " " +:+ ModeB.logMsg r2] ++ closing_lines t2' r2) ∧
  (status r1 = "running" → ModeB.logMsg r2 = ModeB.logMsg r1 →
     ModeB.m_logs m2 = ModeB.m_logs m1 ∧
     (ModeB.lastLogMsg m ≠ Some (ModeB.logMsg r1) →
        ModeB.m_logs m2 = ModeB.m_logs m ++ [t1 +:+ " " +:+ ModeB.logMsg r1])).
Proof.
  intros Hpoll Hnt. cbv zeta.
  assert (Ht1 : ModeB.tick runOrder t1 t1' (Ok r1) m
                = ModeB.poll runOrder t1 t1' (Ok r1) m).
  { unfold ModeB.tick. by rewrite Hpoll. }
  rewrite !Ht1.
  destruct (poll_ok runOrder t1 t1' r1 m) as (Hlast1 & Hlogs1 & Hpoll1).
  rewrite Hpoll, Hnt in Hpoll1.
  unfold ModeB.tick. rewrite Hpoll1. cbn [andb negb].
  destruct (poll_ok runOrder t2 t2' r2 (ModeB.poll runOrder t1 t1' (Ok r1) m))
    as (_ & Hlogs2 & _).
  rewrite Hlogs2, logs_summary, Hlast1.
  assert (Hsame : ModeB.logMsg r2 = ModeB.logMsg r1 →
            ModeB.m_logs (ModeB.poll runOrder t1 t1' (Ok r1) m) ++ closing_lines t2' r2
            = (if decide (Some (ModeB.logMsg r2) = Some (ModeB.logMsg r1))
               then ModeB.m_logs (ModeB.poll runOrder t1 t1' (Ok r1) m)
               else ModeB.m_logs (ModeB.poll runOrder t1 t1' (Ok r1) m)
                      ++ [t2 +:+ " " +:+ ModeB.logMsg r2]) ++ closing_lines t2' r2).
  { intros E.
    destruct (decide (Some (ModeB.logMsg r2) = Some (ModeB.logMsg r1))) as [_|N];
      [done|].
    by rewrite E in N. }
  split; [|split].
  - intros E. by rewrite <- Hsame.
  - intros N.
    destruct (decide (Some (ModeB.logMsg r2) = Some (ModeB.logMsg r1))) as [E|_];
      [congruence|].
    by rewrite <- app_assoc.
  - intros Hrun E. rewrite <- (Hsame E).
    assert (Hc : closing_lines t2' r2 = []).
    { unfold closing_lines. by rewrite (same_summary_as_running r1 r2 Hrun E). }
    rewrite Hc, app_nil_r. split; [done|].
    intros Hnew. rewrite Hlogs1, logs_summary.
    unfold closing_lines. rewrite Hnt, app_nil_r.
    destruct (decide (Some (ModeB.logMsg r1) = ModeB.lastLogMsg m)) as [E'|_];
      [|done].
    exfalso. apply Hnew. by rewrite <- E'.
Qed.

Lemma C5_poll_dedup_witness :
  let r := {| run_id := "r1"; status := "running"; success := false;
              results := None; error := None;
              run_stages := Some ["graph_traverser"; "finetuner"];
              current_stage := Some "graph_traverser" |} in
  let m := ModeB.watching ["graph_traverser"; "finetuner"] "10:00:00" "r1" in
  let m1 := ModeB.tick ["graph_traverser"; "finetuner"] "10:00:02" "" (Ok r) m in
  let m2 := ModeB.tick ["graph_traverser"; "finetuner"] "10:00:04" "" (Ok r) m1 in
  ModeB.m_logs m2 = ModeB.m_logs m1 ∧
  ModeB.m_logs m2 =
    ModeB.m_logs m ++ ["10:00:02" +:+ " " +:+ ModeB.logMsg r].
Proof.
  destruct (C5_poll_dedup ["graph_traverser"; "finetuner"]
              "10:00:02" "" "10:00:04" ""
              {| run_id := "r1"; status := "running"; success := false;
                 results := None; error := None;
                 run_stages := Some ["graph_traverser"; "finetuner"];
                 current_stage := Some "graph_traverser" |}
              {| run_id := "r1"; status := "running"; success := false;
                 results := None; error := None;
                 run_stages := Some ["graph_traverser"; "finetuner"];
                 current_stage := Some "graph_traverser" |}
              (ModeB.watching ["graph_traverser"; "finetuner"] "10:00:00" "r1")
              eq_refl eq_refl) as (_ & _ & H).
  destruct (H eq_refl eq_refl) as [H1 H2].
  split; [exact H1|]. apply H2. discriminate.
Defined.

Example poll_summary_text :
  ModeB.logMsg {| run_id := "r1"; status := "running"; success := false;
                  results := Some [{| sr_success := true; sr_error := None |}];
                  error := None;
                  run_stages := Some ["graph_traverser"; "finetuner"];
                  current_stage := Some "finetuner" |}
  = "Poll: status=running — Phase: Running — FineTuner (Graph Traverser → FineTuner) (1/2 stages)".
Proof. vm_compute. done. Qed.

(** ** Properties of the live channel *)

Section Session_facts.

Import Client.

Variable throws : bool.

Lemma callbacks_app (xs ys : list Action) :
  callbacks (xs ++ ys) = callbacks xs ++ callbacks ys.
Proof. apply omap_app. Qed.

Lemma session_app (xs ys : list Input) : ∀ s,
  session throws (xs ++ ys) s =
    (fst (session throws ys (fst (session throws xs s))),
     snd (session throws xs s) ++
     snd (session throws ys (fst (session throws xs s)))).
Proof.
  induction xs as [|i xs IH]; intros s; simpl.
  - by destruct (session throws ys s).
  - destruct (handle throws i s) as [s1 a1]. rewrite IH.
    destruct (session throws xs s1) as [s2 a2]. simpl.
    by rewrite app_assoc.
Qed.

Lemma close_then_spec (s : Session) (before : list Action) :
  closed (fst (close_then throws s before)) = true ∧
  callbacks (snd (close_then throws s before)) = callbacks before.
Proof.
  unfold close_then, close. destruct (closed s) eqn:E; simpl.
  - by rewrite app_nil_r.
  - by rewrite callbacks_app, app_nil_r.
Qed.

(** Once [closed] is set, no handler calls back and the flag stays. *)
Lemma handle_closed (i : Input) (s : Session) :
  closed s = true →
  fst (handle throws i s) = s ∧ callbacks (snd (handle throws i s)) = [].
Proof.
  intros Hc.
  destruct i as [|data| | |]; simpl;
    unfold onmessage, onerror, onclose, close_then, close;
    by rewrite ?Hc.
Qed.

Lemma session_closed (inputs : list Input) : ∀ s,
  closed s = true →
  fst (session throws inputs s) = s ∧
  callbacks (snd (session throws inputs s)) = [].
Proof.
  induction inputs as [|i inputs IH]; intros s Hc; simpl; [done|].
  destruct (handle_closed i s Hc) as [Hs Ha].
  destruct (handle throws i s) as [s1 a1]. simpl in *. subst s1.
  destruct (IH s Hc) as [Hs' Ha'].
  destruct (session throws inputs s) as [s2 a2]. simpl in *.
  by rewrite callbacks_app, Ha, Ha'.
Qed.

End Session_facts.


Lemma quiet_after_terminal_spec (cbs : list Client.Callback) :
  quiet_after_terminal cbs = true ↔
  ∀ pre cb post, cbs = pre ++ cb :: post →
    Client.is_terminal cb = true → post = [].
Proof.
  induction cbs as [|c cbs IH]; simpl.
  - split; [|done]. intros _ pre cb post H. by destruct pre.
  - destruct (Client.is_terminal c) eqn:Hc.
    + split.
      * intros H pre cb post E Ht. destruct cbs; [|done].
        destruct pre as [|p pre]; simpl in E; inversion E; subst; [done|].
        by destruct pre.
      * intros H. by rewrite (H [] c cbs eq_refl Hc).
    + rewrite IH. split.
      * intros H pre cb post E Ht.
        destruct pre as [|p pre]; simpl in E; inversion E; subst.
        -- congruence.
        -- by eapply H.
      * intros H pre cb post E Ht. by apply (H (c :: pre) cb post); [rewrite E|].
Qed.

Section Session_trace.

Import Client.

Variable throws : bool.

Lemma session_open_runIds (inputs : list Input) : ∀ s,
  closed s = false →
  runIds (callbacks (snd (session throws inputs s))) =
    run_start_ids (while_open inputs).
Proof.
  induction inputs as [|i inputs IH]; intros s Ho; simpl; [done|].
  destruct (closes i) eqn:Hcl.
  - (* the session closes here: nothing later calls back *)
    assert (H : closed (fst (handle throws i s)) = true ∧
                runIds (callbacks (snd (handle throws i s))) = []).
    { destruct i as [|[msg|msg|ev]| | |]; simpl in *; try discriminate;
        unfold onmessage, onerror, onclose; rewrite ?Ho;
        try (destruct ev; try discriminate);
        (split; [apply close_then_spec|]);
        by rewrite (proj2 (close_then_spec throws s _)). }
    destruct H as [Hc Hr].
    destruct (handle throws i s) as [s1 a1]. simpl in *.
    destruct (session_closed throws inputs s1 Hc) as [_ Ha].
    destruct (session throws inputs s1) as [s2 a2]. simpl in *.
    by rewrite callbacks_app, Ha, app_nil_r.
  - assert (H : closed (fst (handle throws i s)) = false ∧
                runIds (callbacks (snd (handle throws i s))) =
                  run_start_ids [i]).
    { destruct i as [|[msg|msg|ev]| | |]; simpl in *; try discriminate;
        unfold onmessage; rewrite ?Ho; try done.
      destruct ev; try discriminate; done. }
    destruct H as [Hc Hr].
    destruct (handle throws i s) as [s1 a1]. simpl in *.
    specialize (IH s1 Hc).
    destruct (session throws inputs s1) as [s2 a2]. simpl in *.
    rewrite callbacks_app. unfold runIds in *. rewrite omap_app, Hr, IH.
    unfold run_start_ids. simpl.
    by destruct i as [|[msg|msg|ev]| | |]; try destruct ev.
Qed.

Lemma no_terminal_prefix (xs ys : list Callback) :
  forallb (λ cb, negb (is_terminal cb)) xs = true →
  quiet_after_terminal (xs ++ ys) = quiet_after_terminal ys.
Proof.
  induction xs as [|x xs IH]; simpl; [done|].
  intros H. apply andb_true_iff in H as [Hx Hxs].
  apply negb_true_iff in Hx. rewrite Hx. by apply IH.
Qed.

Lemma session_open_quiet (inputs : list Input) : ∀ s,
  closed s = false →
  quiet_after_terminal (callbacks (snd (session throws inputs s))) = true.
Proof.
  induction inputs as [|i inputs IH]; intros s Ho; simpl; [done|].
  assert (H : (closed (fst (handle throws i s)) = false ∧
               forallb (λ cb, negb (is_terminal cb))
                 (callbacks (snd (handle throws i s))) = true) ∨
              (closed (fst (handle throws i s)) = true ∧
               quiet_after_terminal
                 (callbacks (snd (handle throws i s))) = true)).
  { destruct i as [|[msg|msg|ev]| | |]; simpl;
      unfold onmessage, onerror, onclose; rewrite ?Ho;
      try (left; by split);
      try (right; split; [apply close_then_spec|];
           by rewrite (proj2 (close_then_spec throws s _))).
    destruct ev;
      try (left; by split);
      right; (split; [apply close_then_spec|]);
      by rewrite (proj2 (close_then_spec throws s _)). }
  destruct (handle throws i s) as [s1 a1]. simpl in *.
  destruct H as [[Hc Hn]|[Hc Hq]].
  - specialize (IH s1 Hc).
    destruct (session throws inputs s1) as [s2 a2]. simpl in *.
    by rewrite callbacks_app, no_terminal_prefix.
  - destruct (session_closed throws inputs s1 Hc) as [_ Ha].
    destruct (session throws inputs s1) as [s2 a2]. simpl in *.
    by rewrite callbacks_app, Ha, app_nil_r.
Qed.

End Session_trace.

(** C6, as stated: [onRunId] is invoked exactly once however many
    [run_start] events arrive.  Two [run_start] messages give two calls. *)
Lemma C6_onRunId_per_run_start :
  Client.runIds (Client.callbacks (Client.runPipelineViaWebSocket false
    [Client.SocketOpen;
     Client.SocketMessage (Client.Payload (Ev_run_start "r1"));
     Client.SocketMessage (Client.Payload (Ev_run_start "r2"))]))
  = ["r1"; "r2"].
Proof. vm_compute. done. Qed.

(** C6, amended.  In every live-channel session, [onRunId] is invoked once
    for each [run_start] event received before the session closes, in
    arrival order and with that event's run identifier; so it is invoked
    exactly once when exactly one [run_start] arrives. *)
Theorem C6_onRunId_calls (throws : bool) (inputs : list Client.Input) :
  Client.runIds (Client.callbacks (Client.runPipelineViaWebSocket throws inputs))
  = run_start_ids (while_open inputs).
Proof.
  unfold Client.runPipelineViaWebSocket. by apply session_open_runIds.
Qed.

(** C7. The close function never throws, and a second call does nothing;
    calling it — once, twice, before or after the channel signalled
    [onDone] or [onError] — adds no callback invocation, and none is made
    after it; no callback follows an [onDone] or an [onError]. *)
Theorem C7_close_idempotent (throws : bool) (s : Client.Session)
    (inputs later : list Client.Input) :
  (let '(s1, acts1, c1) := Client.close throws s in
   let '(s2, acts2, c2) := Client.close throws s1 in
   c1 = Client.Normal ∧ c2 = Client.Normal ∧
   Client.callbacks acts1 = [] ∧ acts2 = [] ∧ s2 = s1) ∧
  Client.callbacks
    (Client.runPipelineViaWebSocket throws (inputs ++ Client.CloseCall :: later))
  = Client.callbacks (Client.runPipelineViaWebSocket throws inputs) ∧
  quiet_after_terminal
    (Client.callbacks (Client.runPipelineViaWebSocket throws inputs)) = true.
Proof.
  split; [|split].
  - unfold Client.close. destruct (Client.closed s) eqn:Hs; simpl.
    + rewrite Hs. by destruct throws.
    + by destruct throws.
  - unfold Client.runPipelineViaWebSocket.
    rewrite session_app. simpl snd. rewrite callbacks_app.
    set (s1 := fst (Client.session throws inputs Client.start)).
    simpl.
    destruct (close_then_spec throws s1 []) as [Hc Ha].
    destruct (Client.close_then throws s1 []) as [s2 a2]. simpl in *.
    destruct (session_closed throws later s2 Hc) as [_ Hl].
    destruct (Client.session throws later s2) as [s3 a3]. simpl in *.
    by rewrite callbacks_app, Ha, Hl, app_nil_r.
  - unfold Client.runPipelineViaWebSocket. by apply session_open_quiet.
Qed.

Example close_after_done :
  Client.callbacks (Client.runPipelineViaWebSocket true
    [Client.SocketOpen;
     Client.SocketMessage (Client.Payload (Ev_run_start "r1"));
     Client.SocketMessage (Client.Payload (Ev_done false None));
     Client.CloseCall; Client.SocketClose; Client.CloseCall;
     Client.SocketMessage (Client.Payload (Ev_error "late"))])
  = [Client.OnEvent (Some (Ev_run_start "r1")); Client.OnRunId "r1";
     Client.OnEvent (Some (Ev_done false None));
     Client.OnDone {| run_id := "r1"; status := "failed"; success := false;
                      results := None; error := None; run_stages := None;
                      current_stage := None |}].
Proof. vm_compute. done. Qed.

(** ** Properties of the request/response calls *)

Section String_facts.

Lemma prefix_app (p s : string) : String.prefix p (p +:+ s) = true.
Proof.
  induction p as [|a p IH]; simpl; [by destruct s|].
  destruct (Ascii.ascii_dec a a); [exact IH | congruence].
Qed.

Lemma includes_prefix (p s : string) : Js.includes (p +:+ s) p = true.
Proof.
  destruct p as [|a p]; [by destruct s|].
  change (Js.includes (String a p +:+ s) (String a p))
    with (String.prefix (String a p) (String a p +:+ s)
          || Js.includes (p +:+ s) (String a p)).
  by rewrite prefix_app.
Qed.

Lemma append_empty_r (s : string) : s +:+ "" = s.
Proof.
  induction s as [|a s IH]; [done|].
  change (String a (s +:+ "") = String a s). by rewrite IH.
Qed.

Lemma append_assoc (p q s : string) : (p +:+ q) +:+ s = p +:+ q +:+ s.
Proof.
  induction p as [|a p IH]; [done|].
  change (String a ((p +:+ q) +:+ s) = String a (p +:+ q +:+ s)).
  by rewrite IH.
Qed.

Lemma includes_self (s : string) : Js.includes s s = true.
Proof.
  pose proof (prefix_app s "") as H. rewrite append_empty_r in H.
  destruct s; simpl in *; [done|]. by rewrite H.
Qed.

Lemma includes_suffix (p s : string) : Js.includes (p +:+ s) s = true.
Proof.
  induction p as [|a p IH]; simpl; [apply includes_self|].
  rewrite IH. apply orb_true_r.
Qed.

End String_facts.


(** C8, as stated: without a [detail] member the failure text carries the
    numeric status code.  For a 404 whose body is [{}] the text is the
    status text alone. *)
Lemma C8_no_detail_gives_status_text :
  let res := {| ok := false; http_status := 404; statusText := "Not Found";
                json := inr {| detail := None; value := empty_snapshot |} |} in
  Client.getRunStatus res = Throw "Not Found" ∧
  Js.includes "Not Found" (pretty 404%nat) = false.
Proof. vm_compute. done. Qed.

(** C8, amended.  On a non-success response [getRunStatus] fails; when the
    body has a non-empty [detail] member the failure text is the numeric
    status code, a colon and that detail; when the body has no [detail]
    member (or is not JSON) the failure text is the transport's status text,
    with no status code added. *)
Theorem C8_getRunStatus_failure (res : HttpResponse RunResultResponse) :
  ok res = false →
  (∀ b d, json res = inr b → detail b = Some d → d ≠ "" →
     Client.getRunStatus res = Throw (pretty (http_status res) +:+ ": " +:+ d) ∧
     Js.includes (pretty (http_status res) +:+ ": " +:+ d)
                 (pretty (http_status res)) = true ∧
     Js.includes (pretty (http_status res) +:+ ": " +:+ d) d = true) ∧
  ((∀ b, json res = inr b → detail b = None) →
     Client.getRunStatus res = Throw (statusText res)).
Proof.
  intros Hok. unfold Client.getRunStatus. rewrite Hok. simpl. split.
  - intros b d Hj Hd Hne. rewrite Hj, Hd. simpl.
    destruct (String.eqb_spec d "") as [E|_]; [done|]. simpl.
    split; [done|]. split; [apply includes_prefix|].
    rewrite <- (append_assoc (pretty (http_status res)) ": " d).
    apply includes_suffix.
  - intros Hnone. destruct (json res) as [msg|b]; [done|].
    by rewrite (Hnone b eq_refl).
Qed.

Lemma C8_getRunStatus_failure_witness :
  let res := {| ok := false; http_status := 404; statusText := "Not Found";
                json := inr {| detail := Some "Run not found";
                               value := empty_snapshot |} |} in
  Client.getRunStatus res = Throw "404: Run not found".
Proof.
  destruct (C8_getRunStatus_failure
              {| ok := false; http_status := 404; statusText := "Not Found";
                 json := inr {| detail := Some "Run not found";
                                value := empty_snapshot |} |} eq_refl)
    as [H _].
  destruct (H {| detail := Some "Run not found"; value := empty_snapshot |}
              "Run not found" eq_refl eq_refl) as [E _]; [discriminate|].
  exact E.
Defined.

(** C9, as stated: whenever the run identifier is missing, the reported
    message is the response's [message] member.  A response with neither a
    run identifier nor a message reports the fixed text instead. *)
Lemma C9_missing_message_reports_fallback :
  let r := {| rr_run_id := None; rr_status := "rejected"; rr_message := None |} in
  let res := {| ok := true; http_status := 200; statusText := "OK";
                json := inr {| detail := None; value := r |} |} in
  let s := Submit.handleRun tt res
             {| Submit.error_text := None; Submit.running_flag := false;
                Submit.onRun_calls := [] |} in
  Submit.onRun_calls s = [] ∧
  Submit.error_text s = Some "Run failed" ∧
  Submit.error_text s ≠ rr_message r.
Proof. vm_compute. repeat split. discriminate. Qed.

(** C9, amended.  In request/response mode a transport-successful response
    without a run identifier is a submission failure: the run callback is not
    invoked, and the reported message is the response's [message] member
    when it is present and non-empty, the fixed text "Run failed" otherwise;
    for [{status: "rejected", message: "quota exceeded"}] it is exactly
    "quota exceeded". *)
Theorem C9_submission_without_run_id {Config : Type} (config : Config)
    (res : HttpResponse RunResponse) (r : RunResponse)
    (s : Submit.State Config) :
  Client.runPipeline res = Ok r →
  Js.truthy (rr_run_id r) = false →
  let s' := Submit.handleRun config res s in
  Submit.onRun_calls s' = Submit.onRun_calls s ∧
  Submit.running_flag s' = false ∧
  (∀ m, rr_message r = Some m → m ≠ "" → Submit.error_text s' = Some m) ∧
  (rr_message r = None ∨ rr_message r = Some "" →
     Submit.error_text s' = Some "Run failed").
Proof.
  intros Hres Hid. unfold Submit.handleRun. rewrite Hres, Hid. simpl.
  repeat split.
  - intros m Hm Hne. rewrite Hm. simpl.
    by destruct (String.eqb_spec m "").
  - by intros [-> | ->].
Qed.

Lemma C9_quota_exceeded_witness :
  let r := {| rr_run_id := None; rr_status := "rejected";
              rr_message := Some "quota exceeded" |} in
  let res := {| ok := true; http_status := 200; statusText := "OK";
                json := inr {| detail := None; value := r |} |} in
  let s := Submit.handleRun tt res
             {| Submit.error_text := None; Submit.running_flag := false;
                Submit.onRun_calls := [] |} in
  Submit.onRun_calls s = [] ∧ Submit.error_text s = Some "quota exceeded".
Proof.
  destruct (C9_submission_without_run_id tt
              {| ok := true; http_status := 200; statusText := "OK";
                 json := inr {| detail := None;
                                value := {| rr_run_id := None;
                                            rr_status := "rejected";
                                            rr_message := Some "quota exceeded" |} |} |}
              {| rr_run_id := None; rr_status := "rejected";
                 rr_message := Some "quota exceeded" |}
              {| Submit.error_text := None; Submit.running_flag := false;
                 Submit.onRun_calls := [] |}
              eq_refl eq_refl) as (Hc & _ & Hm & _).
  split; [exact Hc|]. apply (Hm "quota exceeded" eq_refl). discriminate.
Defined.

(** ** The progress published by a terminal poll *)

Section Terminal_progress.

Import ModeB.


Lemma succeeded_le (res : RunResultResponse) :
  (succeeded res ≤ length (Js.nullish (results res) []))%nat.
Proof. unfold succeeded. apply length_filter. Qed.


End Terminal_progress.

(** C10.  The code does not meet the claim: for a [failed] snapshot whose
    result list is present but empty, the denominator
    [res.results?.length ?? 1] is 0, the quotient is 0/0 and the published
    overall progress is [NaN]. *)
Theorem C10_failed_empty_results_NaN :
  let res := {| run_id := "r1"; status := "failed"; success := false;
                results := Some []; error := Some "Neo4j unreachable";
                run_stages := Some ["graph_traverser"; "chatml_converter"];
                current_stage := None |} in
  let m := ModeB.tick ["graph_traverser"; "chatml_converter"]
             "10:00:02" "10:00:02" (Ok res)
             (ModeB.watching ["graph_traverser"; "chatml_converter"]
                "10:00:00" "r1") in
  Js.nullish (length <$> results res) 1%nat = 0%nat ∧
  ModeB.terminal_progress res = Js.NaN ∧
  ModeB.m_overallProgress m = Js.NaN ∧
  ModeB.onDone_calls m = [res].
Proof. vm_compute. done. Qed.

(** ** Invariants of the Mode A fold *)

Section ModeA_invariants.

Import ModeA.

Lemma indexOf_found (xs : list string) (x : string) :
  0 <= Js.indexOf xs x →
  xs !! Z.to_nat (Js.indexOf xs x) = Some x ∧
  ∀ j, (j < Z.to_nat (Js.indexOf xs x))%nat → xs !! j ≠ Some x.
Proof.
  unfold Js.indexOf.
  destruct (list_find (λ y, y = x) xs) as [[i y]|] eqn:E; [|lia].
  intros _. apply list_find_Some in E as (Hi & -> & Hfirst).
  rewrite Nat2Z.id. split; [done|].
  intros j Hj Hx. by apply (Hfirst j x Hx Hj).
Qed.

Lemma indexOf_present (xs : list string) (x : string) :
  x ∈ xs → 0 <= Js.indexOf xs x < Z.of_nat (length xs).
Proof.
  intros Hx. unfold Js.indexOf.
  destruct (list_find (λ y, y = x) xs) as [[i y]|] eqn:E.
  - apply list_find_Some in E as (Hi & _ & _).
    apply lookup_lt_Some in Hi. lia.
  - apply list_find_None in E. rewrite Forall_forall in E.
    exfalso. by apply (E x).
Qed.

(** What the fold keeps true of its locals. *)
Lemma step_shape runOrder ts ev st :
  length (stageDetails st) = length (orderedStages st) →
  (∀ i d, stageDetails st !! i = Some d →
     ∃ id, orderedStages st !! i = Some id ∧ sd_name d = stage_label id) →
  let st' := step runOrder ts ev st in
  length (stageDetails st') = length (orderedStages st') ∧
  (∀ i d, stageDetails st' !! i = Some d →
     ∃ id, orderedStages st' !! i = Some id ∧ sd_name d = stage_label id).
Proof.
  intros Hlen Hname.
  assert (Hfresh : ∀ order : list string,
    length (pending_detail <$> order) = length order ∧
    (∀ i d, (pending_detail <$> order) !! i = Some d →
       ∃ id, order !! i = Some id ∧ sd_name d = stage_label id)).
  { intros order. split; [apply length_fmap|].
    intros i d Hd. rewrite list_lookup_fmap in Hd.
    destruct (order !! i) as [id|]; [|done].
    inversion Hd; subst. by exists id. }
  assert (Halter : ∀ stage (f : StageDetail → StageDetail),
    (∀ d, sd_name (f d) = stage_label stage) →
    let details :=
      if in_range (Js.indexOf (orderedStages st) stage) (stageDetails st)
      then alter f (Z.to_nat (Js.indexOf (orderedStages st) stage)) (stageDetails st)
      else stageDetails st in
    length details = length (orderedStages st) ∧
    (∀ i d, details !! i = Some d →
       ∃ id, orderedStages st !! i = Some id ∧ sd_name d = stage_label id)).
  { intros stage f Hf. simpl.
    destruct (in_range _ _) eqn:Hin; [|done].
    split; [by rewrite length_alter|].
    intros i d Hd. unfold in_range in Hin.
    apply andb_true_iff in Hin as [H0 _]. apply Z.leb_le in H0.
    destruct (indexOf_found _ _ H0) as [Hat _].
    destruct (decide (Z.to_nat (Js.indexOf (orderedStages st) stage) = i))
      as [<-|Hne].
    - rewrite list_lookup_alter_eq in Hd.
      destruct (stageDetails st !! _) as [d0|]; [|done].
      inversion Hd; subst. exists stage. by rewrite Hf.
    - rewrite list_lookup_alter_ne in Hd by done. by apply Hname. }
  destruct ev as [id|sts|stage|stage ok err|lvl lg msg|ok res|msg|tag];
    simpl; try done; try apply Hfresh.
  - exact (Halter stage (started stage) (λ _, eq_refl)).
  - exact (Halter stage (ended stage ok err) (λ _, eq_refl)).
Qed.

Lemma run_shape clock events runOrder :
  let st := run clock events runOrder in
  length (stageDetails st) = length (orderedStages st) ∧
  (∀ i d, stageDetails st !! i = Some d →
     ∃ id, orderedStages st !! i = Some id ∧ sd_name d = stage_label id).
Proof.
  induction events as [|ev events IH] using rev_ind.
  - simpl. unfold run. simpl. split; [apply length_fmap|].
    intros i d Hd. rewrite list_lookup_fmap in Hd.
    destruct (runOrder !! i) as [id|]; [|done].
    inversion Hd; subst. by exists id.
  - rewrite run_snoc. destruct IH as [H1 H2]. by apply step_shape.
Qed.

Lemma step_progress runOrder ts ev st :
  Forall (λ d, sd_progress d = if decide (sd_status d = completed) then 100 else 0)
    (stageDetails st) →
  Forall (λ d, sd_progress d = if decide (sd_status d = completed) then 100 else 0)
    (stageDetails (step runOrder ts ev st)).
Proof.
  intros H.
  destruct ev as [id|sts|stage|stage ok err|lvl lg msg|ok res|msg|tag];
    simpl; try done.
  - apply Forall_fmap, Forall_forall. by intros.
  - destruct (in_range _ _); [|done]. apply Forall_alter; [done|]. by intros.
  - destruct (in_range _ _); [|done]. apply Forall_alter; [done|].
    intros d _ _. by destruct ok.
Qed.

Lemma loop_logs runOrder clock evs : ∀ i st,
  ∃ extra,
    logLines (loop runOrder clock i evs st) = logLines st ++ extra ∧
    length extra = length (filter (λ ev, known_event ev = true) evs).
Proof.
  induction evs as [|ev evs IH]; intros i st; simpl.
  - exists []. by rewrite app_nil_r.
  - destruct (IH (S i) (step runOrder (clock i) ev st)) as (extra & -> & Hlen).
    destruct ev as [id|sts|stage|stage ok err|lvl lg msg|ok res|msg|tag];
      simpl;
      (eexists; split; [by rewrite <- ?app_assoc | simpl; by rewrite ?Hlen]).
Qed.

Lemma completed_alter_le (f : StageDetail → StageDetail) (l : list StageDetail) :
  ∀ i, (completed_entries (alter f i l) ≤ completed_entries l + 1)%nat.
Proof.
  unfold completed_entries.
  induction l as [|d l IH]; intros [|i]; simpl; try lia.
  - rewrite !filter_cons. repeat case_decide; simpl; lia.
  - change (list_alter f i l) with (alter f i l).
    rewrite !filter_cons. specialize (IH i). case_decide; simpl; lia.
Qed.

Lemma completed_alter_not (f : StageDetail → StageDetail) (l : list StageDetail) :
  (∀ d, sd_status (f d) ≠ completed) →
  ∀ i, (completed_entries (alter f i l) ≤ completed_entries l)%nat.
Proof.
  intros Hf. unfold completed_entries.
  induction l as [|d l IH]; intros [|i]; simpl; try lia.
  - rewrite !filter_cons. specialize (Hf d). repeat case_decide; simpl; try lia; done.
  - change (list_alter f i l) with (alter f i l).
    rewrite !filter_cons. specialize (IH i). case_decide; simpl; lia.
Qed.

Lemma completed_pending (order : list string) :
  completed_entries (pending_detail <$> order) = 0%nat.
Proof.
  unfold completed_entries. induction order as [|x order IH]; [done|].
  rewrite fmap_cons, filter_cons_False; [exact IH|done].
Qed.

Lemma step_counter runOrder ts ev st :
  let st' := step runOrder ts ev st in
  Z.of_nat (completed_entries (stageDetails st')) - Z.of_nat (completed_entries (stageDetails st))
    <= completedCount st' - completedCount st ∧
  completedCount st <= completedCount st' ∧
  completedCount st' - completedCount st
    <= (if successful_stage_end ev then 1 else 0) ∧
  (0 <= completedCount st → 0 <= Z.of_nat (completed_entries (stageDetails st)) <= completedCount st →
   Z.of_nat (completed_entries (stageDetails st')) <= completedCount st').
Proof.
  destruct ev as [id|sts|stage|stage ok err|lvl lg msg|ok res|msg|tag];
    simpl; try lia.
  - rewrite completed_pending. lia.
  - destruct (in_range _ _); [|lia].
    pose proof (completed_alter_not (started stage) (stageDetails st)
                  (λ d, ltac:(done))
                  (Z.to_nat (Js.indexOf (orderedStages st) stage))). lia.
  - destruct (in_range _ _); simpl; [|destruct ok; lia].
    destruct ok; simpl.
    + pose proof (completed_alter_le (ended stage true err) (stageDetails st)
                    (Z.to_nat (Js.indexOf (orderedStages st) stage))). lia.
    + pose proof (completed_alter_not (ended stage false err) (stageDetails st)
                    (λ d, ltac:(done))
                    (Z.to_nat (Js.indexOf (orderedStages st) stage))). lia.
Qed.

Lemma run_counter clock events runOrder :
  let st := run clock events runOrder in
  Z.of_nat (completed_entries (stageDetails st)) <= completedCount st ∧
  0 <= completedCount st ∧
  completedCount st
    <= Z.of_nat (length (filter (λ ev, successful_stage_end ev = true) events)).
Proof.
  induction events as [|ev events IH] using rev_ind.
  - unfold run. simpl. rewrite completed_pending. lia.
  - rewrite run_snoc, filter_app, length_app.
    destruct IH as (H1 & H2 & H3).
    pose proof (step_counter runOrder (clock (length events)) ev
                  (run clock events runOrder)) as (S1 & S2 & S3 & S4).
    simpl in *. split; [apply S4; lia|]. split; [lia|].
    rewrite filter_cons. destruct (successful_stage_end ev) eqn:E.
    + rewrite decide_True by done. simpl. lia.
    + rewrite decide_False by done. simpl. lia.
Qed.

End ModeA_invariants.

(** X1. In every state of the live fold the StageDetail list has exactly one
    entry per stage of the current order, and the entry at a position is
    named by the label of the stage at that position. *)
Theorem X1_details_follow_order (clock : nat → string) (events : list WsEvent)
    (runOrder : list string) :
  let st := ModeA.run clock events runOrder in
  length (stages (ModeA.stagesFromWsEvents clock events runOrder))
    = length (ModeA.orderedStages st) ∧
  ∀ (i : nat) (d : StageDetail),
    stages (ModeA.stagesFromWsEvents clock events runOrder) !! i = Some d →
    ∃ id, ModeA.orderedStages st !! i = Some id ∧ sd_name d = stage_label id.
Proof. simpl. rewrite stages_view. apply run_shape. Qed.

Lemma X1_details_witness :
  ∃ id,
    ModeA.orderedStages
      (ModeA.run (λ _, "10:00:00")
         [Ev_pipeline_start (Some ["finetuner"]); Ev_stage_start "finetuner"]
         ["graph_traverser"]) !! 0%nat = Some id ∧
    "FineTuner" = stage_label id.
Proof.
  destruct (X1_details_follow_order (λ _, "10:00:00")
              [Ev_pipeline_start (Some ["finetuner"]); Ev_stage_start "finetuner"]
              ["graph_traverser"]) as [_ H].
  apply (H 0%nat {| sd_name := "FineTuner"; sd_status := running;
                    sd_progress := 0; sd_error := None |}).
  reflexivity.
Defined.

(** X2. Every entry of the derived view has progress 100 when its status is
    [completed] and progress 0 otherwise. *)
Theorem X2_progress_matches_status (clock : nat → string)
    (events : list WsEvent) (runOrder : list string) :
  Forall (λ d, sd_progress d = if decide (sd_status d = completed) then 100 else 0)
    (stages (ModeA.stagesFromWsEvents clock events runOrder)).
Proof.
  rewrite stages_view.
  induction events as [|ev events IH] using rev_ind.
  - unfold ModeA.run. simpl. apply Forall_fmap, Forall_forall. by intros.
  - rewrite run_snoc. by apply step_progress.
Qed.

(** X3. The transcript only grows: under one clock, the transcript of a
    prefix of the events is a prefix of the transcript of all of them, and
    the transcript has one line per event with a known tag. *)
Theorem X3_transcript_append_only (clock : nat → string)
    (events : list WsEvent) (runOrder : list string) (k : nat) :
  logs (ModeA.stagesFromWsEvents clock (take k events) runOrder)
    `prefix_of` logs (ModeA.stagesFromWsEvents clock events runOrder) ∧
  length (logs (ModeA.stagesFromWsEvents clock events runOrder))
    = length (filter (λ ev, known_event ev = true) events).
Proof.
  rewrite !logs_view. split.
  - rewrite <- (take_drop k events) at 2. unfold ModeA.run.
    rewrite loop_app.
    destruct (loop_logs runOrder clock (drop k events)
                (0 + length (take k events))
                (ModeA.loop runOrder clock 0 (take k events) (ModeA.init runOrder)))
      as (extra & -> & _).
    by exists extra.
  - unfold ModeA.run.
    destruct (loop_logs runOrder clock events 0%nat (ModeA.init runOrder))
      as (extra & -> & Hlen).
    done.
Qed.

(** X4. The completed-stage counter is never below the number of entries
    shown as [completed] and never above the number of successful
    [stage_end] events received. *)
Theorem X4_counter_bounds (clock : nat → string) (events : list WsEvent)
    (runOrder : list string) :
  let st := ModeA.run clock events runOrder in
  Z.of_nat (completed_entries
              (stages (ModeA.stagesFromWsEvents clock events runOrder)))
    <= ModeA.completedCount st ∧
  ModeA.completedCount st
    <= Z.of_nat (length (filter (λ ev, successful_stage_end ev = true) events)).
Proof.
  simpl. rewrite stages_view.
  destruct (run_counter clock events runOrder) as (H1 & _ & H3). by split.
Qed.

Section ModeA_frames.

Import ModeA.

Lemma loop_stages_agree runOrder runOrder' clock clock' evs : ∀ i i' st st',
  Forall (λ ev, ev ≠ Ev_pipeline_start None) evs →
  orderedStages st = orderedStages st' →
  stageDetails st = stageDetails st' →
  stageDetails (loop runOrder clock i evs st)
    = stageDetails (loop runOrder' clock' i' evs st').
Proof.
  induction evs as [|ev evs IH]; intros i i' st st' Hevs Ho Hd; simpl; [done|].
  apply Forall_cons in Hevs as [Hev Hevs].
  apply IH; [done| |];
    destruct ev as [id|[sts|]|stage|stage ok err|lvl lg msg|ok res|msg|tag];
    simpl; by rewrite ?Ho, ?Hd.
Qed.

End ModeA_frames.

(** X5. A [stage_start] or [stage_end] naming a stage of the current order
    rewrites the entry at the first position of that stage and no other
    entry: that entry gets the stage's label and the status [running],
    [completed] or [failed] the event asks for. *)
Theorem X5_known_stage_updates_first_entry (clock : nat → string)
    (events : list WsEvent) (runOrder : list string) (stage : string)
    (ev : WsEvent) :
  stage ∈ ModeA.orderedStages (ModeA.run clock events runOrder) →
  (ev = Ev_stage_start stage ∨ ∃ ok err, ev = Ev_stage_end stage ok err) →
  let order := ModeA.orderedStages (ModeA.run clock events runOrder) in
  let before := stages (ModeA.stagesFromWsEvents clock events runOrder) in
  let after := stages (ModeA.stagesFromWsEvents clock (events ++ [ev]) runOrder) in
  let idx := Z.to_nat (Js.indexOf order stage) in
  order !! idx = Some stage ∧
  (∀ j, (j < idx)%nat → order !! j ≠ Some stage) ∧
  (∀ j, j ≠ idx → after !! j = before !! j) ∧
  ∃ d', after !! idx = Some d' ∧ sd_name d' = stage_label stage ∧
        sd_status d' =
          match ev with
          | Ev_stage_start _ => running
          | Ev_stage_end _ true _ => completed
          | _ => failed
          end.
Proof.
  intros Hin Hev. cbv zeta. rewrite !stages_view, run_snoc.
  set (st := ModeA.run clock events runOrder) in *.
  pose proof (indexOf_present _ _ Hin) as Hidx.
  destruct (indexOf_found _ _ (proj1 Hidx)) as [Hat Hfirst].
  destruct (run_shape clock events runOrder) as [Hlen _]. fold st in Hlen.
  assert (Hrange : ModeA.in_range (Js.indexOf (ModeA.orderedStages st) stage)
                     (ModeA.stageDetails st) = true).
  { unfold ModeA.in_range. rewrite Hlen.
    apply andb_true_iff. split; [apply Z.leb_le | apply Z.ltb_lt]; lia. }
  assert (Hsome : is_Some (ModeA.stageDetails st
                    !! Z.to_nat (Js.indexOf (ModeA.orderedStages st) stage))).
  { apply lookup_lt_is_Some. rewrite Hlen. lia. }
  destruct Hsome as [d0 Hd0].
  split; [done|]. split; [done|].
  destruct Hev as [->|(ok & err & ->)]; simpl; rewrite Hrange.
  - split; [intros j Hj; by rewrite list_lookup_alter_ne|].
    rewrite list_lookup_alter_eq, Hd0. simpl. by eexists.
  - split; [intros j Hj; by rewrite list_lookup_alter_ne|].
    rewrite list_lookup_alter_eq, Hd0. simpl. eexists. split; [done|].
    by destruct ok.
Qed.

Lemma X5_known_stage_witness :
  let evs := [Ev_pipeline_start (Some ["finetuner"; "graph_traverser"; "finetuner"])] in
  let after := stages (ModeA.stagesFromWsEvents (λ _, "10:00:00")
                 (evs ++ [Ev_stage_end "finetuner" true None]) ["graph_traverser"]) in
  ∃ d', after !! 0%nat = Some d' ∧ sd_status d' = completed.
Proof.
  destruct (X5_known_stage_updates_first_entry (λ _, "10:00:00")
              [Ev_pipeline_start (Some ["finetuner"; "graph_traverser"; "finetuner"])]
              ["graph_traverser"] "finetuner"
              (Ev_stage_end "finetuner" true None))
    as (_ & _ & _ & d' & H1 & _ & H3).
  - vm_compute. apply list_elem_of_here.
  - right. by exists true, None.
  - exists d'. split; [exact H1 | exact H3].
Defined.

(** X6. A [pipeline_start] that announces its stages makes the stage list
    forget everything before it: the StageDetail list after any later
    events is the one a fresh fold over those later events, started on the
    announced order, would give.  The completed-stage counter is not reset
    by it. *)
Theorem X6_pipeline_start_resets_stages (clock clock' : nat → string)
    (events later : list WsEvent) (runOrder order : list string) :
  Forall (λ ev, ev ≠ Ev_pipeline_start None) later →
  stages (ModeA.stagesFromWsEvents clock
            (events ++ Ev_pipeline_start (Some order) :: later) runOrder)
    = stages (ModeA.stagesFromWsEvents clock' later order) ∧
  ModeA.completedCount
    (ModeA.run clock (events ++ [Ev_pipeline_start (Some order)]) runOrder)
    = ModeA.completedCount (ModeA.run clock events runOrder).
Proof.
  intros Hlater. rewrite !stages_view, run_snoc. split; [|done].
  unfold ModeA.run. rewrite loop_app. simpl.
  by apply loop_stages_agree.
Qed.

Lemma X6_pipeline_start_witness :
  stages (ModeA.stagesFromWsEvents (λ _, "10:00:00")
            ([Ev_stage_end "graph_traverser" true None]
               ++ Ev_pipeline_start (Some ["finetuner"])
               :: [Ev_stage_start "finetuner"]) ["graph_traverser"])
  = stages (ModeA.stagesFromWsEvents (λ _, "10:00:05")
              [Ev_stage_start "finetuner"] ["finetuner"]).
Proof.
  apply (X6_pipeline_start_resets_stages (λ _, "10:00:00") (λ _, "10:00:05")
           [Ev_stage_end "graph_traverser" true None]
           [Ev_stage_start "finetuner"] ["graph_traverser"] ["finetuner"]).
  repeat constructor; discriminate.
Defined.

(** ** Sequences of polls *)

Section ModeB_sequences.

Import ModeB.

Lemma ticks_stopped runOrder polls : ∀ m,
  polling m = false → ticks runOrder polls m = m.
Proof.
  induction polls as [|[[ts1 ts2] fetched] polls IH]; intros m Hm; simpl; [done|].
  unfold tick. rewrite Hm. by apply IH.
Qed.

Lemma poll_effect runOrder ts1 ts2 fetched m :
  let m' := poll runOrder ts1 ts2 fetched m in
  m_logs m `prefix_of` m_logs m' ∧
  match fetched with
  | Ok res =>
      if is_terminal res
      then polling m' = false ∧ onDone_calls m' = onDone_calls m ++ [res]
      else polling m' = polling m ∧ onDone_calls m' = onDone_calls m
  | Throw _ => polling m' = polling m ∧ onDone_calls m' = onDone_calls m
  end.
Proof.
  destruct fetched as [res|msg]; simpl.
  - assert (Hs : m_logs m `prefix_of` m_logs (log_poll_summary ts1 res m) ∧
                 polling (log_poll_summary ts1 res m) = polling m ∧
                 onDone_calls (log_poll_summary ts1 res m) = onDone_calls m).
    { unfold log_poll_summary.
      destruct (decide (Some (logMsg res) = lastLogMsg m)); simpl; [done|].
      split; [by eexists|done]. }
    destruct Hs as (Hp & Hpoll & Hdone).
    destruct (String.eqb (status res) "running") eqn:Hrun.
    + by rewrite (is_terminal_running _ Hrun).
    + destruct (is_terminal res); [|done]. simpl.
      rewrite Hdone. split; [|done].
      etrans; [exact Hp|]. by eexists.
  - split; [by eexists|done].
Qed.

Lemma ticks_spec runOrder polls : ∀ m,
  polling m = true →
  let m' := ticks runOrder polls m in
  onDone_calls m' = onDone_calls m ++ option_list (first_terminal polls) ∧
  polling m' = match first_terminal polls with Some _ => false | None => true end ∧
  m_logs m `prefix_of` m_logs m'.
Proof.
  induction polls as [|[[ts1 ts2] fetched] polls IH]; intros m Hm; simpl.
  - by rewrite app_nil_r.
  - unfold tick at 1 2 3. rewrite Hm.
    pose proof (poll_effect runOrder ts1 ts2 fetched m) as [Hpre Heff].
    destruct fetched as [res|msg].
    + destruct (is_terminal res).
      * destruct Heff as [Hp Hd].
        rewrite (ticks_stopped runOrder polls _ Hp), Hp. done.
      * destruct Heff as [Hp Hd]. rewrite Hm in Hp.
        destruct (IH _ Hp) as (H1 & H2 & H3).
        rewrite H1, Hd, H2. split; [done|]. split; [done|]. by etrans.
    + destruct Heff as [Hp Hd]. rewrite Hm in Hp.
      destruct (IH _ Hp) as (H1 & H2 & H3).
      rewrite H1, Hd, H2. split; [done|]. split; [done|]. by etrans.
Qed.

End ModeB_sequences.

Section Schedules.

Import ModeB.

Variable runOrder : list string.

Lemma poll_outcome ts1 ts2 fetched m :
  polling (poll runOrder ts1 ts2 fetched m)
    = polling m && negb (terminal_outcome fetched) ∧
  onDone_calls (poll runOrder ts1 ts2 fetched m)
    = onDone_calls m ++ terminal_snapshots [fetched] ∧
  m_logs m `prefix_of` m_logs (poll runOrder ts1 ts2 fetched m).
Proof.
  pose proof (poll_effect runOrder ts1 ts2 fetched m) as [Hpre Heff].
  cbv zeta in Heff. split; [|split; [|exact Hpre]].
  - destruct fetched as [res|msg]; cbn [terminal_outcome].
    + destruct (is_terminal res); destruct Heff as [Hp _]; rewrite Hp.
      * by rewrite andb_false_r.
      * by rewrite andb_true_r.
    + destruct Heff as [Hp _]. by rewrite Hp, andb_true_r.
  - destruct fetched as [res|msg].
    + destruct (is_terminal res) eqn:Ht; destruct Heff as [_ Hd]; rewrite Hd;
        unfold terminal_snapshots; simpl; rewrite Ht; [done|].
      by rewrite app_nil_r.
    + destruct Heff as [_ Hd]. rewrite Hd. by rewrite app_nil_r.
Qed.

Lemma schedule_calls (sched : list PollStep) : ∀ p,
  onDone_calls (monitor (run_schedule runOrder sched p))
    = onDone_calls (monitor p)
        ++ terminal_snapshots
             (handled_outcomes (polling (monitor p)) (in_flight p) sched) ∧
  m_logs (monitor p) `prefix_of` m_logs (monitor (run_schedule runOrder sched p)).
Proof.
  induction sched as [|[|ts1 ts2 fetched] sched IH]; intros p;
    cbn [run_schedule handled_outcomes poll_step].
  - unfold terminal_snapshots. simpl. by rewrite app_nil_r.
  - destruct (polling (monitor p)) eqn:Hp.
    + destruct (IH {| monitor := monitor p; in_flight := S (in_flight p) |})
        as [H1 H2].
      cbn [monitor in_flight] in *. by rewrite Hp in H1.
    + destruct (IH p) as [H1 H2]. by rewrite Hp in H1.
  - destruct (in_flight p) as [|n] eqn:Hn.
    + destruct (IH p) as [H1 H2]. by rewrite Hn in H1.
    + destruct (IH {| monitor := poll runOrder ts1 ts2 fetched (monitor p);
                      in_flight := n |}) as [H1 H2].
      destruct (poll_outcome ts1 ts2 fetched (monitor p)) as (Hp & Hd & Hl).
      cbn [monitor in_flight] in *. rewrite H1, Hp, Hd, <- app_assoc.
      split; [|by etrans].
      f_equal. symmetry. apply (omap_app _ [fetched]).
Qed.

Lemma schedule_after_clear (sched : list PollStep) : ∀ p,
  polling (monitor p) = false →
  polling (monitor (run_schedule runOrder sched p)) = false ∧
  (in_flight (run_schedule runOrder sched p) ≤ in_flight p)%nat ∧
  (length (onDone_calls (monitor (run_schedule runOrder sched p)))
   ≤ length (onDone_calls (monitor p)) + in_flight p)%nat.
Proof.
  induction sched as [|[|ts1 ts2 fetched] sched IH]; intros p Hp;
    cbn [run_schedule poll_step].
  - split; [done|]. lia.
  - rewrite Hp. by apply IH.
  - destruct (in_flight p) as [|n] eqn:Hn.
    + destruct (IH p Hp) as (H1 & H2 & H3). rewrite Hn in *. done.
    + destruct (poll_outcome ts1 ts2 fetched (monitor p)) as (Hq & Hd & _).
      rewrite Hp in Hq. cbn [andb] in Hq.
      destruct (IH {| monitor := poll runOrder ts1 ts2 fetched (monitor p);
                      in_flight := n |} Hq) as (H1 & H2 & H3).
      cbn [monitor in_flight] in *. split; [done|]. split; [lia|].
      rewrite Hd, length_app in H3.
      assert (Hone : (length (terminal_snapshots [fetched]) ≤ 1)%nat).
      { unfold terminal_snapshots. destruct fetched as [res|msg]; simpl; [|lia].
        destruct (is_terminal res); simpl; lia. }
      lia.
Qed.

Lemma sequential_ticks (polls : list (string * string * result RunResultResponse)) :
  ∀ m, run_schedule runOrder (sequential polls) {| monitor := m; in_flight := 0 |}
       = {| monitor := ticks runOrder polls m; in_flight := 0 |}.
Proof.
  induction polls as [|[[ts1 ts2] fetched] polls IH]; intros m; [done|].
  cbn [sequential run_schedule ticks poll_step monitor in_flight].
  unfold tick. destruct (polling m); cbn [in_flight monitor]; apply IH.
Qed.

End Schedules.

(** X7. Over any schedule of timer firings and fetch resolutions,
    completion is signalled once for each callback whose fetch resolves
    with a [completed] or [failed] snapshot, with that snapshot and in the
    order of resolution: so again for a callback that was already in flight
    when the timer was cleared.  Once the timer is cleared it starts no
    further callback, so at most as many further signals follow as callbacks
    were in flight.  When no two callbacks overlap, completion is signalled
    exactly for the first such snapshot and never again.  Fetch failures
    signal nothing, and the log only grows. *)
Theorem X7_completion_per_terminal_resolution (runOrder : list string)
    (sched : list PollStep) (p : Poller)
    (polls : list (string * string * result RunResultResponse))
    (m : ModeB.Monitor) :
  let p' := run_schedule runOrder sched p in
  ModeB.onDone_calls (monitor p')
    = ModeB.onDone_calls (monitor p)
        ++ terminal_snapshots
             (handled_outcomes (ModeB.polling (monitor p)) (in_flight p) sched) ∧
  ModeB.m_logs (monitor p) `prefix_of` ModeB.m_logs (monitor p') ∧
  (ModeB.polling (monitor p) = false →
     ModeB.polling (monitor p') = false ∧
     (in_flight p' ≤ in_flight p)%nat ∧
     (length (ModeB.onDone_calls (monitor p'))
      ≤ length (ModeB.onDone_calls (monitor p)) + in_flight p)%nat) ∧
  (ModeB.polling m = true →
     ModeB.onDone_calls
       (monitor (run_schedule runOrder (sequential polls)
                   {| monitor := m; in_flight := 0 |}))
     = ModeB.onDone_calls m ++ option_list (first_terminal polls)).
Proof.
  cbv zeta. destruct (schedule_calls runOrder sched p) as [H1 H2].
  split; [exact H1|]. split; [exact H2|]. split.
  - apply schedule_after_clear.
  - intros Hm. rewrite sequential_ticks. cbn [monitor].
    by destruct (ticks_spec runOrder polls m Hm) as [H _].
Qed.

Lemma X7_completion_witness :
  ModeB.onDone_calls
    (monitor
       (run_schedule ["finetuner"]
          (sequential
             [("10:00:02", "",
               Ok {| run_id := "r1"; status := "running"; success := false;
                     results := None; error := None; run_stages := None;
                     current_stage := None |});
              ("10:00:04", "", Throw "Failed to fetch");
              ("10:00:06", "10:00:06",
               Ok {| run_id := "r1"; status := "completed"; success := true;
                     results := Some [{| sr_success := true; sr_error := None |}];
                     error := None; run_stages := None; current_stage := None |})])
          {| monitor := ModeB.watching ["finetuner"] "10:00:00" "r1";
             in_flight := 0 |}))
  = [{| run_id := "r1"; status := "completed"; success := true;
        results := Some [{| sr_success := true; sr_error := None |}];
        error := None; run_stages := None; current_stage := None |}].
Proof.
  destruct (X7_completion_per_terminal_resolution ["finetuner"] []
              {| monitor := ModeB.watching ["finetuner"] "10:00:00" "r1";
                 in_flight := 0 |}
              [("10:00:02", "",
                Ok {| run_id := "r1"; status := "running"; success := false;
                      results := None; error := None; run_stages := None;
                      current_stage := None |});
               ("10:00:04", "", Throw "Failed to fetch");
               ("10:00:06", "10:00:06",
                Ok {| run_id := "r1"; status := "completed"; success := true;
                      results := Some [{| sr_success := true; sr_error := None |}];
                      error := None; run_stages := None; current_stage := None |})]
              (ModeB.watching ["finetuner"] "10:00:00" "r1"))
    as (_ & _ & _ & H).
  exact (H eq_refl).
Defined.

(** Two callbacks in flight when the first resolves with the final
    snapshot: both signal completion. *)
Example overlapping_callbacks_signal_twice :
  let final :=
    {| run_id := "r1"; status := "completed"; success := true;
       results := Some [{| sr_success := true; sr_error := None |}];
       error := None; run_stages := None; current_stage := None |} in
  ModeB.onDone_calls
    (monitor
       (run_schedule ["finetuner"]
          [TimerFires; TimerFires;
           FetchResolves "10:00:05" "10:00:05" (Ok final);
           TimerFires;
           FetchResolves "10:00:06" "10:00:06" (Ok final)]
          {| monitor := ModeB.watching ["finetuner"] "10:00:00" "r1";
             in_flight := 0 |}))
  = [final; final].
Proof. vm_compute. done. Qed.

(** X8. The two counts of a poll summary are a proper fraction: the total is
    at least 1 and the number of successful results never exceeds it. *)
Theorem X8_summary_counts (res : RunResultResponse) :
  (1 ≤ ModeB.poll_total res)%nat ∧
  (ModeB.succeeded res ≤ ModeB.poll_total res)%nat.
Proof.
  pose proof (succeeded_le res). unfold ModeB.poll_total. lia.
Qed.

(** ** More on the live channel *)

Section Session_more.

Import Client.

Variable throws : bool.

Lemma handle_closed_actions (i : Input) (s : Session) :
  closed s = true →
  filter (λ a, is_ws_close a = true) (snd (handle throws i s)) = [].
Proof.
  intros Hc.
  destruct i as [|data| | |]; simpl;
    unfold onmessage, onerror, onclose, close_then, close;
    by rewrite ?Hc.
Qed.

Lemma session_closed_actions (inputs : list Input) : ∀ s,
  closed s = true →
  filter (λ a, is_ws_close a = true) (snd (session throws inputs s)) = [].
Proof.
  induction inputs as [|i inputs IH]; intros s Hc; simpl; [done|].
  pose proof (handle_closed_actions i s Hc) as Ha.
  destruct (handle_closed throws i s Hc) as [Hs _].
  destruct (handle throws i s) as [s1 a1]. simpl in *. subst s1.
  specialize (IH s Hc).
  destruct (session throws inputs s) as [s2 a2]. simpl in *.
  by rewrite filter_app, Ha, IH.
Qed.

(** What one input does to an open session. *)
Lemma handle_open (i : Input) (s : Session) :
  closed s = false →
  let s' := fst (handle throws i s) in
  let acts := snd (handle throws i s) in
  closed s' = closes i ∧
  onEvent_args (callbacks acts) = option_list (event_of i) ∧
  length (filter (λ a, is_ws_close a = true) acts) = (if closes i then 1 else 0)%nat ∧
  runId s' = match i with
             | SocketMessage (Payload (Ev_run_start id)) => id
             | _ => runId s
             end.
Proof.
  intros Ho.
  destruct i as [|[msg|msg|ev]| | |]; simpl;
    unfold onmessage, onerror, onclose, close_then, close; rewrite ?Ho;
    try done.
  destruct ev; simpl; rewrite ?Ho; done.
Qed.

Lemma session_open_events (inputs : list Input) : ∀ s,
  closed s = false →
  onEvent_args (callbacks (snd (session throws inputs s)))
    = omap event_of (handled inputs) ∧
  length (filter (λ a, is_ws_close a = true) (snd (session throws inputs s)))
    = (if existsb closes inputs then 1 else 0)%nat.
Proof.
  induction inputs as [|i inputs IH]; intros s Ho; simpl; [done|].
  destruct (handle_open i s Ho) as (Hc & He & Hw & _).
  destruct (handle throws i s) as [s1 a1]. simpl in *.
  destruct (closes i) eqn:Hcl.
  - destruct (session_closed throws inputs s1 Hc) as [_ Ha].
    pose proof (session_closed_actions inputs s1 Hc) as Hf.
    destruct (session throws inputs s1) as [s2 a2]. simpl in *.
    rewrite callbacks_app, Ha, app_nil_r, He, filter_app, Hf, app_nil_r.
    split; [|done]. by destruct (event_of i).
  - destruct (IH s1 Hc) as [IH1 IH2].
    destruct (session throws inputs s1) as [s2 a2]. simpl in *.
    rewrite callbacks_app. unfold onEvent_args in *.
    rewrite omap_app, He, IH1, filter_app, length_app, Hw, IH2.
    split; [|done]. by destruct (event_of i).
Qed.

Lemma default_last_cons (a x : string) (l : list string) :
  default a (last (x :: l)) = default x (last l).
Proof.
  revert a x. induction l as [|y l IH]; intros a x; [done|].
  change (last (x :: y :: l)) with (last (y :: l)).
  by rewrite (IH a y), (IH x y).
Qed.

Lemma session_open_done (inputs : list Input) : ∀ s r,
  closed s = false →
  OnDone r ∈ callbacks (snd (session throws inputs s)) →
  ∃ ok res,
    done_received inputs = Some (ok, res) ∧
    r = done_result
          {| closed := false;
             runId := default (runId s) (last (run_start_ids (while_open inputs))) |}
          ok res.
Proof.
  induction inputs as [|i inputs IH]; intros s r Ho Hin; simpl in *.
  { by apply elem_of_nil in Hin. }
  destruct (handle_open i s Ho) as (Hc & _ & _ & Hid).
  pose proof (session_closed throws inputs (fst (handle throws i s))) as Hsil.
  destruct (handle throws i s) as [s1 a1] eqn:Hh. simpl in *.
  pose proof (IH s1 r) as IH'.
  destruct (session throws inputs s1) as [s2 a2]. simpl in *.
  rewrite callbacks_app in Hin. apply elem_of_app in Hin as [Hin|Hin].
  - (* the call is made while handling [i] *)
    destruct i as [|[msg|msg|ev]| | |]; simpl in *;
      unfold onmessage, onerror, onclose, close_then, close in Hh;
      rewrite ?Ho in Hh; inversion Hh; subst; simpl in Hin;
      try (by apply elem_of_nil in Hin);
      try (by repeat (apply elem_of_cons in Hin as [Hin|Hin]; [discriminate|]);
              apply elem_of_nil in Hin).
    destruct ev; inversion Hh; subst; simpl in Hin;
      repeat (apply elem_of_cons in Hin as [Hin|Hin]; [try discriminate|]);
      try (by apply elem_of_nil in Hin).
    inversion Hin; subst. by eexists _, _.
  - destruct (closes i) eqn:Hcl.
    + destruct (Hsil Hc) as [_ Ha]. rewrite Ha in Hin. by apply elem_of_nil in Hin.
    + destruct (IH' Hc Hin) as (ok & res & Hd & ->).
      exists ok, res.
      split.
      * destruct i as [|[msg|msg|ev]| | |]; try done.
        all: try (destruct ev; done).
      * f_equal. f_equal. rewrite Hid.
        destruct i as [|[msg|msg|ev]| | |]; try done.
        all: try (destruct ev; try done; simpl; unfold run_start_ids; simpl;
                  by rewrite default_last_cons).
Qed.

End Session_more.

(** X9. In every live session [onEvent] is called once for each message
    that is handled before the session closes and whose text parses
    (the JSON value [null] included), in arrival order and with the parsed
    value; the message that closes the session is among them. *)
Theorem X9_onEvent_per_message (throws : bool) (inputs : list Client.Input) :
  onEvent_args (Client.callbacks (Client.runPipelineViaWebSocket throws inputs))
  = omap event_of (handled inputs).
Proof.
  unfold Client.runPipelineViaWebSocket. by apply session_open_events.
Qed.

(** X10. A session calls the socket's own [close()] at most once: exactly
    once when some input closes the session, never otherwise. *)
Theorem X10_socket_closed_once (throws : bool) (inputs : list Client.Input) :
  length (filter (λ a, is_ws_close a = true)
            (Client.runPipelineViaWebSocket throws inputs))
  = (if existsb closes inputs then 1 else 0)%nat.
Proof.
  unfold Client.runPipelineViaWebSocket. by apply session_open_events.
Qed.

(** X11. Whenever a session calls [onDone], the session handled a [done]
    message, and the result passed has the run identifier of the last
    [run_start] received before (the empty text if there was none), the
    status [completed] or [failed] according to the message's success flag,
    that flag, the message's results and no error text. *)
Theorem X11_onDone_result (throws : bool) (inputs : list Client.Input)
    (r : RunResultResponse) :
  Client.OnDone r ∈
    Client.callbacks (Client.runPipelineViaWebSocket throws inputs) →
  ∃ ok res,
    done_received inputs = Some (ok, res) ∧
    run_id r = default "" (last (run_start_ids (while_open inputs))) ∧
    status r = (if ok then "completed" else "failed") ∧
    success r = ok ∧ results r = res ∧ error r = None.
Proof.
  intros Hin. unfold Client.runPipelineViaWebSocket in Hin.
  destruct (session_open_done throws inputs Client.start r eq_refl Hin)
    as (ok & res & Hd & ->).
  by exists ok, res.
Qed.

Lemma X11_onDone_witness :
  ∃ ok res,
    done_received
      [Client.SocketMessage (Client.Payload (Ev_run_start "r7"));
       Client.SocketMessage (Client.Payload (Ev_done false None))]
      = Some (ok, res) ∧
    run_id (Client.done_result {| Client.closed := false; Client.runId := "r7" |}
              false None) = "r7" ∧
    status (Client.done_result {| Client.closed := false; Client.runId := "r7" |}
              false None) = (if ok then "completed" else "failed").
Proof.
  destruct (X11_onDone_result false
              [Client.SocketMessage (Client.Payload (Ev_run_start "r7"));
               Client.SocketMessage (Client.Payload (Ev_done false None))]
              (Client.done_result
                 {| Client.closed := false; Client.runId := "r7" |} false None))
    as (ok & res & H1 & H2 & H3 & _).
  - vm_compute. apply list_elem_of_further, list_elem_of_further,
      list_elem_of_further, list_elem_of_here.
  - exists ok, res. split; [exact H1|]. split; [exact H2 | exact H3].
Defined.

(** ** The application state after a live session *)

Section Live_run.

Import Client.

Context {Config : Type}.
Variables (cfg : Config) (throws : bool).

Lemma handle_open_callbacks (i : Input) (s : Session) :
  closed s = false →
  callbacks (snd (handle throws i s)) = callbacks_for s i.
Proof.
  intros Ho.
  destruct i as [|[msg|msg|ev]| | |]; simpl;
    unfold onmessage, onerror, onclose, close_then, close; rewrite ?Ho;
    try done.
  destruct ev; simpl; rewrite ?Ho; done.
Qed.

Lemma log_step_fold (evs : list (option WsEvent)) : ∀ ws,
  foldl log_step ws evs =
    if existsb is_run_start evs then foldl log_step [] evs else ws ++ evs.
Proof.
  induction evs as [|e evs IH]; intros ws; simpl.
  - by rewrite app_nil_r.
  - rewrite (IH (log_step ws e)), (IH (log_step [] e)). unfold log_step.
    destruct (is_run_start e); simpl.
    + by destruct (existsb is_run_start evs).
    + destruct (existsb is_run_start evs); [done|]. by rewrite <- app_assoc.
Qed.

Lemma log_step_after_last (evs : list (option WsEvent)) :
  foldl log_step [] evs = after_last_run_start evs.
Proof.
  induction evs as [|e evs IH]; simpl; [done|].
  rewrite log_step_fold, IH. unfold log_step.
  destruct (existsb is_run_start evs); [done|].
  by destruct (is_run_start e).
Qed.

Lemma no_run_start_after_last (evs : list (option WsEvent)) :
  existsb is_run_start (after_last_run_start evs) = false.
Proof.
  induction evs as [|e evs IH]; simpl; [done|].
  destruct (existsb is_run_start evs) eqn:E; [done|].
  destruct (is_run_start e) eqn:E'; simpl; [done|]. by rewrite E', E.
Qed.

(** The state after the callbacks of a session that starts open. *)
Lemma live_fold (inputs : list Input) : ∀ (s : Session) (st : App.State Config),
  closed s = false →
  let st' := foldl (λ acc cb, App.live_callback cfg cb acc) st
               (callbacks (snd (session throws inputs s))) in
  let ids := run_start_ids (while_open inputs) in
  App.wsEvents st' = foldl log_step (App.wsEvents st) (omap event_of (handled inputs)) ∧
  App.lastRunId st' =
    match last ids with Some id => Some id | None => App.lastRunId st end ∧
  App.config st' =
    match last ids with Some _ => Some cfg | None => App.config st end ∧
  App.lastResult st' =
    match done_received inputs with
    | Some (ok, res) =>
        Some (done_result {| closed := false;
                             runId := default (runId s) (last ids) |} ok res)
    | None => App.lastResult st
    end ∧
  App.activeTab st' =
    match done_received inputs with
    | Some _ => App.results_tab
    | None => match last ids with Some _ => App.monitor | None => App.activeTab st end
    end.
Proof.
  induction inputs as [|i inputs IH]; intros s st Ho; [done|].
  cbn [session].
  destruct (handle_open throws i s Ho) as (Hc & _ & _ & Hid).
  pose proof (handle_open_callbacks i s Ho) as Hcb.
  pose proof (session_closed throws inputs (fst (handle throws i s))) as Hsil.
  destruct (handle throws i s) as [s1 a1]. cbn [fst snd] in *.
  pose proof (IH s1) as IH'.
  destruct (session throws inputs s1) as [s2 a2]. cbn [fst snd] in *.
  rewrite callbacks_app, foldl_app, Hcb.
  destruct (closes i) eqn:Hcl.
  - (* [i] closes the session: nothing after it calls back *)
    destruct (Hsil Hc) as [_ ->]. cbn [foldl].
    destruct i as [|[msg|msg|ev]| | |]; try discriminate;
      try (destruct ev; try discriminate); cbn; repeat split; done.
  - specialize (IH' (foldl (λ acc cb, App.live_callback cfg cb acc) st
                       (callbacks_for s i)) Hc).
    cbv zeta in IH'. destruct IH' as (H1 & H2 & H3 & H4 & H5).
    cbv zeta. rewrite H1, H2, H3, H4, H5, Hid. clear H1 H2 H3 H4 H5.
    destruct i as [|[msg|msg|ev]| | |]; try discriminate; try (cbn; done).
    destruct ev; try discriminate; try (cbn; done).
    (* a [run_start] *)
    cbn. unfold run_start_ids. cbn. rewrite default_last_cons, last_cons.
    fold (run_start_ids (while_open inputs)).
    destruct (last (run_start_ids (while_open inputs))); repeat split; try done;
      by destruct (done_received inputs) as [[? ?]|].
Qed.

End Live_run.

(** X12. After a live session started by [handleRun], the recorded event
    log holds exactly the parsed messages handled after the last
    [run_start], in order: the run callback clears the log right after that
    [run_start] was appended, so no [run_start] is ever in the log. *)
Theorem X12_event_log_after_session {Config : Type} (cfg : Config)
    (throws : bool) (inputs : list Client.Input) (st : App.State Config) :
  App.wsEvents (App.live_run cfg throws inputs st)
    = after_last_run_start (omap event_of (handled inputs)) ∧
  existsb is_run_start (App.wsEvents (App.live_run cfg throws inputs st)) = false.
Proof.
  assert (H : App.wsEvents (App.live_run cfg throws inputs st)
              = after_last_run_start (omap event_of (handled inputs))).
  { unfold App.live_run, Client.runPipelineViaWebSocket.
    destruct (live_fold cfg throws inputs Client.start
                (App.setWsEvents (λ _, []) st) eq_refl) as (H & _).
    rewrite H. simpl. apply log_step_after_last. }
  split; [exact H|]. rewrite H. apply no_run_start_after_last.
Qed.

(** X13. After a live session the application shows the run announced by
    the last [run_start] it handled, with the submitted configuration, on
    the monitor tab; if the session handled a [done] message, the results
    tab is shown with a result carrying that run's identifier.  Without a
    [run_start] the run and configuration shown are the earlier ones, and
    without a [done] so is the stored result: a new run does not clear
    it. *)
Theorem X13_state_after_session {Config : Type} (cfg : Config)
    (throws : bool) (inputs : list Client.Input) (st : App.State Config) :
  let st' := App.live_run cfg throws inputs st in
  let ids := run_start_ids (while_open inputs) in
  App.lastRunId st' =
    match last ids with Some id => Some id | None => App.lastRunId st end ∧
  App.config st' =
    match last ids with Some _ => Some cfg | None => App.config st end ∧
  App.lastResult st' =
    match done_received inputs with
    | Some (ok, res) =>
        Some {| run_id := default "" (last ids);
                status := if ok then "completed" else "failed";
                success := ok; results := res; error := None;
                run_stages := None; current_stage := None |}
    | None => App.lastResult st
    end ∧
  App.activeTab st' =
    match done_received inputs with
    | Some _ => App.results_tab
    | None => match last ids with
              | Some _ => App.monitor
              | None => App.activeTab st
              end
    end.
Proof.
  cbv zeta. unfold App.live_run, Client.runPipelineViaWebSocket.
  destruct (live_fold cfg throws inputs Client.start
              (App.setWsEvents (λ _, []) st) eq_refl) as (_ & H2 & H3 & H4 & H5).
  rewrite H2, H3, H4, H5. by repeat split.
Qed.

Example live_session_log :
  App.wsEvents (App.live_run tt false
    [Client.SocketOpen;
     Client.SocketMessage (Client.Payload (Ev_run_start "r1"));
     Client.SocketMessage (Client.Payload (Ev_stage_start "finetuner"));
     Client.SocketMessage (Client.Payload (Ev_done true None));
     Client.SocketMessage (Client.Payload (Ev_stage_start "late"))]
    App.initial)
  = [Some (Ev_stage_start "finetuner"); Some (Ev_done true None)].
Proof. vm_compute. done. Qed.

(** ** Stage selection and the submitted payload *)

Section Configure_facts.

Import Configure.

Lemma includes_spec (xs : list string) (x : string) :
  includes xs x = true ↔ x ∈ xs.
Proof. unfold includes. apply bool_decide_eq_true. Qed.

Lemma toggleStage_spec (id : string) (prev : list string) :
  (NoDup prev → NoDup (toggleStage id prev)) ∧
  (∀ x, x ≠ id → (x ∈ toggleStage id prev ↔ x ∈ prev)) ∧
  (id ≠ "evaluator" → (id ∈ toggleStage id prev ↔ id ∉ prev)) ∧
  (id = "evaluator" → toggleStage id prev = prev).
Proof.
  unfold toggleStage.
  destruct (String.eqb_spec id "evaluator") as [->|Hne].
  { repeat split; done. }
  destruct (includes prev id) eqn:Hin.
  - apply includes_spec in Hin. repeat split; try done.
    + by apply NoDup_filter.
    + intros Hx. by apply list_elem_of_filter in Hx as [_ ?].
    + intros Hx. apply list_elem_of_filter. by split.
    + intros Hx. by apply list_elem_of_filter in Hx as [? _].
  - assert (Hnot : id ∉ prev).
    { intros Hx. apply includes_spec in Hx. congruence. }
    repeat split; try done.
    + intros Hnd. apply NoDup_app. repeat split; [done| |apply NoDup_singleton].
      intros x Hx Hx'. apply list_elem_of_singleton in Hx'. by subst.
    + intros Hx. apply elem_of_app in Hx as [Hx|Hx]; [done|].
      apply list_elem_of_singleton in Hx. by subst.
    + intros Hx. apply elem_of_app. by left.
    + intros _. apply elem_of_app. right. by apply list_elem_of_singleton.
Qed.

Global Instance canonical_before_trans : Transitive canonical_before.
Proof. unfold canonical_before. intros a b c. lia. Qed.

Lemma insert_stage_perm (x : string) (l : list string) :
  insert_stage x l ≡ₚ x :: l.
Proof.
  induction l as [|y l IH]; simpl; [done|].
  destruct (compare_stages x y <=? 0); [done|].
  rewrite IH. apply Permutation_swap.
Qed.

Lemma sort_stages_perm (l : list string) : sort_stages l ≡ₚ l.
Proof.
  induction l as [|x l IH]; simpl; [done|].
  by rewrite insert_stage_perm, IH.
Qed.

Lemma insert_stage_sorted (x : string) (l : list string) :
  StronglySorted canonical_before l →
  StronglySorted canonical_before (insert_stage x l).
Proof.
  induction 1 as [|y l Hl IH Hy]; simpl.
  - repeat constructor.
  - destruct (Z.leb_spec (compare_stages x y) 0) as [Hle|Hgt].
    + constructor; [by constructor|].
      assert (Hxy : canonical_before x y).
      { unfold canonical_before, compare_stages in *. lia. }
      constructor; [done|].
      eapply Forall_impl; [exact Hy|]. intros z Hz. by etrans.
    + constructor; [done|].
      rewrite insert_stage_perm. constructor; [|done].
      unfold canonical_before, compare_stages in *. lia.
Qed.

Lemma sort_stages_sorted (l : list string) :
  StronglySorted canonical_before (sort_stages l).
Proof.
  induction l as [|x l IH]; simpl; [constructor|].
  by apply insert_stage_sorted.
Qed.

Lemma canonical_before_antisym (a b : string) :
  a ∈ STAGE_ORDER → canonical_before a b → canonical_before b a → a = b.
Proof.
  unfold canonical_before. intros Ha H1 H2.
  pose proof (indexOf_present _ _ Ha) as [Ha0 _].
  assert (E : Js.indexOf STAGE_ORDER a = Js.indexOf STAGE_ORDER b) by lia.
  destruct (indexOf_found STAGE_ORDER a Ha0) as [Hat _].
  destruct (indexOf_found STAGE_ORDER b ltac:(lia)) as [Hbt _].
  rewrite E in Hat. congruence.
Qed.

Lemma STAGE_ORDER_sorted : StronglySorted canonical_before STAGE_ORDER.
Proof.
  unfold STAGE_ORDER, canonical_before.
  repeat (constructor; [|repeat (constructor; [by vm_compute|]); constructor]).
  constructor.
Qed.

Lemma StronglySorted_filter_stages (P : string → Prop) `{∀ x, Decision (P x)}
    (l : list string) :
  StronglySorted canonical_before l →
  StronglySorted canonical_before (filter P l).
Proof.
  induction 1 as [|y l Hl IH Hy]; [constructor|].
  rewrite filter_cons. destruct (decide (P y)); [|done].
  constructor; [done|].
  apply Forall_forall. intros z Hz. apply list_elem_of_filter in Hz as [_ Hz].
  rewrite Forall_forall in Hy. by apply Hy.
Qed.

Lemma sort_stages_canonical (selected : list string) :
  NoDup selected → selected ⊆ STAGE_ORDER →
  sort_stages selected = filter (λ s, s ∈ selected) STAGE_ORDER.
Proof.
  intros Hnd Hsub.
  apply (StronglySorted_unique_strong canonical_before).
  - intros a b Ha _. apply canonical_before_antisym.
    apply Hsub. by rewrite <- (sort_stages_perm selected).
  - apply sort_stages_sorted.
  - apply StronglySorted_filter_stages, STAGE_ORDER_sorted.
  - rewrite sort_stages_perm. apply NoDup_Permutation; [done| |].
    + apply NoDup_filter. unfold STAGE_ORDER.
      repeat (apply NoDup_cons; split;
              [intros Hx; repeat (apply elem_of_cons in Hx as [Hx|Hx]; [discriminate|]);
               by apply elem_of_nil in Hx|]).
      apply NoDup_nil_2.
    + intros x. rewrite list_elem_of_filter. split; [|by intros [? _]].
      intros Hx. split; [done|]. by apply Hsub.
Qed.

Lemma selection_after_spec (clicks : list string) :
  Forall (λ id, id ∈ STAGE_ORDER) clicks →
  NoDup (selection_after clicks) ∧
  ("evaluator" ∉ selection_after clicks) ∧
  (selection_after clicks ⊆ STAGE_ORDER).
Proof.
  induction clicks as [|id clicks IH] using rev_ind; intros Hc.
  - unfold selection_after, initial_selection. simpl. repeat split.
    + repeat (apply NoDup_cons; split;
              [intros Hx; repeat (apply elem_of_cons in Hx as [Hx|Hx]; [discriminate|]);
               by apply elem_of_nil in Hx|]).
      apply NoDup_nil_2.
    + intros Hx. repeat (apply elem_of_cons in Hx as [Hx|Hx]; [discriminate|]).
      by apply elem_of_nil in Hx.
    + intros x Hx. unfold STAGE_ORDER.
      repeat (apply elem_of_cons in Hx as [->|Hx];
              [repeat (first [apply list_elem_of_here | apply list_elem_of_further])|]).
      by apply elem_of_nil in Hx.
  - apply Forall_app in Hc as [Hc Hid]. rewrite Forall_singleton in Hid.
    destruct (IH Hc) as (Hnd & Hev & Hsub).
    unfold selection_after in *. rewrite foldl_snoc.
    set (sel := foldl _ _ clicks) in *.
    destruct (toggleStage_spec id sel) as (T1 & T2 & T3 & T4).
    repeat split.
    + by apply T1.
    + destruct (decide (id = "evaluator")) as [E|E].
      * by rewrite (T4 E).
      * intros Hx. apply Hev. by apply (T2 "evaluator").
    + intros x Hx. destruct (decide (x = id)) as [->|E]; [done|].
      apply Hsub. by apply (T2 x).
Qed.

End Configure_facts.

(** X14. [toggleStage] flips the membership of the clicked stage and of no
    other, never changes anything for [evaluator], and keeps a selection
    free of duplicates. *)
Theorem X14_toggleStage (id : string) (prev : list string) :
  (NoDup prev → NoDup (Configure.toggleStage id prev)) ∧
  (∀ x, x ≠ id → (x ∈ Configure.toggleStage id prev ↔ x ∈ prev)) ∧
  (id ≠ "evaluator" → (id ∈ Configure.toggleStage id prev ↔ id ∉ prev)) ∧
  (id = "evaluator" → Configure.toggleStage id prev = prev).
Proof. apply toggleStage_spec. Qed.

Lemma X14_toggleStage_witness :
  NoDup (Configure.toggleStage "finetuner" ["graph_traverser"; "chatml_converter"]) ∧
  Configure.toggleStage "evaluator" ["graph_traverser"] = ["graph_traverser"].
Proof.
  destruct (X14_toggleStage "finetuner" ["graph_traverser"; "chatml_converter"])
    as (H1 & _).
  destruct (X14_toggleStage "evaluator" ["graph_traverser"]) as (_ & _ & _ & H4).
  split; [|by apply H4].
  apply H1.
  repeat (apply NoDup_cons; split;
          [intros Hx; repeat (apply elem_of_cons in Hx as [Hx|Hx]; [discriminate|]);
           by apply elem_of_nil in Hx|]).
  apply NoDup_nil_2.
Defined.

(** X15. The [run_stages] of the payload are the selected stages, each as
    often as selected, arranged in canonical pipeline order; for a
    duplicate-free selection of known stages they are the canonical order
    restricted to the selection, whatever the order of selection. *)
Theorem X15_run_stages_canonical {Traversal Neo4j Redis LLM Number : Type}
    (selected : list string)
    (gt : GraphTraverserConfig Traversal Neo4j Redis LLM)
    (cm : ChatMLConverterConfig) (ft : FineTunerConfig Number) :
  let rs := payload_run_stages (Configure.buildConfig selected gt cm ft) in
  rs ≡ₚ selected ∧
  Sorted canonical_before rs ∧
  (NoDup selected → selected ⊆ STAGE_ORDER →
   rs = filter (λ s, s ∈ selected) STAGE_ORDER).
Proof.
  simpl. split; [apply sort_stages_perm|].
  split; [apply StronglySorted_Sorted, sort_stages_sorted|].
  apply sort_stages_canonical.
Qed.

Lemma X15_run_stages_witness :
  payload_run_stages
    (Configure.buildConfig ["finetuner"; "graph_traverser"]
       {| gt_output_path := None; traversal := tt;
          dataset := {| seed_prompts := []; system_message := None;
                        include_metadata := true; ds_output_path := None |};
          neo4j := @None unit; redis := @None unit; llm := @None unit;
          llm_provider := None |}
       {| input_path := ""; cm_output_path := "";
          prepare_for_finetuning := true; chat_template := None |}
       {| model_name := ""; model_type := ""; train_data_path := "";
          eval_data_path := None; ft_output_dir := "";
          max_seq_length := @None unit; num_train_epochs := None;
          per_device_train_batch_size := None; learning_rate := None |})
  = filter (λ s, s ∈ ["finetuner"; "graph_traverser"]) STAGE_ORDER.
Proof.
  apply X15_run_stages_canonical.
  - repeat (apply NoDup_cons; split;
            [intros Hx; repeat (apply elem_of_cons in Hx as [Hx|Hx]; [discriminate|]);
             by apply elem_of_nil in Hx|]).
    apply NoDup_nil_2.
  - intros x Hx. unfold STAGE_ORDER.
    repeat (apply elem_of_cons in Hx as [->|Hx];
            [repeat (first [apply list_elem_of_here | apply list_elem_of_further])|]).
    by apply elem_of_nil in Hx.
Defined.

(** X16. In the payload a stage's section is present exactly when the stage
    is selected, and there is never an [evaluator] section; a finetuner
    section always names one of the allowed Gemma 3 models with model type
    [gemma3]; a graph-traverser section always has a non-empty output path
    and no empty seed prompt. *)
Theorem X16_payload_sections {Traversal Neo4j Redis LLM Number : Type}
    (selected : list string)
    (gt : GraphTraverserConfig Traversal Neo4j Redis LLM)
    (cm : ChatMLConverterConfig) (ft : FineTunerConfig Number) :
  let p := Configure.buildConfig selected gt cm ft in
  (is_Some (graph_traverser p) ↔ "graph_traverser" ∈ selected) ∧
  (is_Some (chatml_converter p) ↔ "chatml_converter" ∈ selected) ∧
  (is_Some (finetuner p) ↔ "finetuner" ∈ selected) ∧
  evaluator p = None ∧
  (∀ f, finetuner p = Some f →
     model_name f ∈ Configure.GEMMA_3_MODELS ∧ model_type f = "gemma3") ∧
  (∀ g, graph_traverser p = Some g →
     (∃ o, gt_output_path g = Some o ∧ o ≠ "") ∧
     "" ∉ seed_prompts (dataset g)).
Proof.
  assert (Hsec : ∀ {A} (x : string) (a : A),
            is_Some (if Configure.includes selected x then Some a else None)
            ↔ x ∈ selected).
  { intros A x a. rewrite <- includes_spec.
    destruct (Configure.includes selected x); split; intros H;
      try done; try (by eexists); by destruct H. }
  simpl. split; [apply Hsec|]. split; [apply Hsec|]. split; [apply Hsec|].
  split; [done|]. split.
  - intros f Hf. destruct (Configure.includes selected "finetuner"); [|done].
    inversion Hf; subst; simpl. split; [|done].
    destruct (bool_decide (model_name ft ∈ Configure.GEMMA_3_MODELS)) eqn:E.
    + by apply bool_decide_eq_true in E.
    + apply list_elem_of_here.
  - intros g Hg. destruct (Configure.includes selected "graph_traverser"); [|done].
    inversion Hg; subst; simpl. split.
    + eexists. split; [done|]. unfold Js.or_else.
      destruct (gt_output_path gt) as [o|]; [|done].
      destruct (String.eqb_spec o ""); done.
    + intros Hx. by apply list_elem_of_filter in Hx as [? _].
Qed.

Lemma X16_payload_witness :
  model_name
    {| model_name := "unsloth/gemma-3-270m-it"; model_type := "gemma3";
       train_data_path := "output/prepared.jsonl"; eval_data_path := None;
       ft_output_dir := "output/finetuned"; max_seq_length := @None unit;
       num_train_epochs := None; per_device_train_batch_size := None;
       learning_rate := None |} ∈ Configure.GEMMA_3_MODELS ∧
  "gemma3" = "gemma3".
Proof.
  destruct (X16_payload_sections (Traversal := unit) (Neo4j := unit)
              (Redis := unit) (LLM := unit) ["finetuner"]
              {| gt_output_path := None; traversal := tt;
                 dataset := {| seed_prompts := []; system_message := None;
                               include_metadata := true; ds_output_path := None |};
                 neo4j := None; redis := None; llm := None;
                 llm_provider := None |}
              {| input_path := ""; cm_output_path := "";
                 prepare_for_finetuning := true; chat_template := None |}
              {| model_name := "meta/llama"; model_type := "llama";
                 train_data_path := "output/prepared.jsonl";
                 eval_data_path := None; ft_output_dir := "output/finetuned";
                 max_seq_length := @None unit; num_train_epochs := None;
                 per_device_train_batch_size := None; learning_rate := None |})
    as (_ & _ & _ & _ & H & _).
  apply (H {| model_name := "unsloth/gemma-3-270m-it"; model_type := "gemma3";
              train_data_path := "output/prepared.jsonl"; eval_data_path := None;
              ft_output_dir := "output/finetuned"; max_seq_length := None;
              num_train_epochs := None; per_device_train_batch_size := None;
              learning_rate := None |}).
  reflexivity.
Defined.

(** X17. Whatever stage buttons are clicked, in whatever order, starting
    from the initial selection: the selection has no duplicates and never
    contains [evaluator], and the submitted [run_stages] are the canonical
    order restricted to the selection, so they never contain [evaluator]
    either. *)
Theorem X17_clicks_then_submit {Traversal Neo4j Redis LLM Number : Type}
    (clicks : list string)
    (gt : GraphTraverserConfig Traversal Neo4j Redis LLM)
    (cm : ChatMLConverterConfig) (ft : FineTunerConfig Number) :
  Forall (λ id, id ∈ STAGE_ORDER) clicks →
  let sel := selection_after clicks in
  let rs := payload_run_stages (Configure.buildConfig sel gt cm ft) in
  NoDup sel ∧ ("evaluator" ∉ sel) ∧
  rs = filter (λ s, s ∈ sel) STAGE_ORDER ∧
  "evaluator" ∉ rs.
Proof.
  intros Hc. destruct (selection_after_spec clicks Hc) as (Hnd & Hev & Hsub).
  cbv zeta. split; [done|]. split; [done|].
  assert (E : payload_run_stages
                (Configure.buildConfig (selection_after clicks) gt cm ft)
              = filter (λ s, s ∈ selection_after clicks) STAGE_ORDER).
  { simpl. by apply sort_stages_canonical. }
  split; [exact E|]. rewrite E.
  intros Hx. by apply list_elem_of_filter in Hx as [? _].
Qed.

Lemma X17_clicks_witness :
  payload_run_stages
    (Configure.buildConfig
       (selection_after ["finetuner"; "evaluator"; "graph_traverser"])
       {| gt_output_path := None; traversal := tt;
          dataset := {| seed_prompts := []; system_message := None;
                        include_metadata := true; ds_output_path := None |};
          neo4j := @None unit; redis := @None unit; llm := @None unit;
          llm_provider := None |}
       {| input_path := ""; cm_output_path := "";
          prepare_for_finetuning := true; chat_template := None |}
       {| model_name := ""; model_type := ""; train_data_path := "";
          eval_data_path := None; ft_output_dir := "";
          max_seq_length := @None unit; num_train_epochs := None;
          per_device_train_batch_size := None; learning_rate := None |})
  = filter (λ s, s ∈ selection_after ["finetuner"; "evaluator"; "graph_traverser"])
      STAGE_ORDER.
Proof.
  apply X17_clicks_then_submit.
  unfold STAGE_ORDER.
  repeat (constructor;
          [repeat (first [apply list_elem_of_here | apply list_elem_of_further])|]).
  constructor.
Defined.

(** ** Base address and live-channel address *)

Section Url_facts.

Import Url.

Lemma strip_trailing_slash_app (s : string) :
  strip_trailing_slash (s +:+ "/") = s.
Proof.
  induction s as [|c s IH]; [done|].
  change (String c s +:+ "/") with (String c (s +:+ "/")).
  cbn [strip_trailing_slash]. rewrite IH. by destruct s.
Qed.

Lemma strip_trailing_slash_empty (s : string) :
  strip_trailing_slash s = "" ↔ s = "" ∨ s = "/".
Proof.
  split.
  - destruct s as [|c [|c' s]]; [by left| |done].
    cbn [strip_trailing_slash].
    destruct (String.eqb_spec (String c "") "/") as [->|_]; [by right|done].
  - by intros [->| ->].
Qed.

Lemma upgrade_scheme_http (rest : string) :
  upgrade_scheme ("http" +:+ rest) = "ws" +:+ rest.
Proof. unfold upgrade_scheme. by rewrite (prefix_app "http" rest). Qed.

Lemma strip_trailing_slash_other (s : string) :
  (∀ b, s ≠ b +:+ "/") → strip_trailing_slash s = s.
Proof.
  induction s as [|c s IH]; intros Hs; [done|].
  cbn [strip_trailing_slash]. destruct s as [|c' s'].
  - destruct (String.eqb_spec (String c "") "/") as [E|_]; [|done].
    exfalso. by apply (Hs "").
  - rewrite IH; [done|]. intros b E. apply (Hs (String c b)).
    change (String c b +:+ "/") with (String c (b +:+ "/")). by rewrite <- E.
Qed.

Lemma getBaseUrl_strips (trim : string → string) (base : string) :
  trim (base +:+ "/") ≠ "" →
  getBaseUrl trim (Some (base +:+ "/")) = base.
Proof.
  intros Hb. unfold getBaseUrl.
  destruct (String.eqb_spec (base +:+ "/") "") as [E|_].
  { by destruct base. }
  destruct (String.eqb_spec (trim (base +:+ "/")) "") as [E|_]; [done|].
  simpl. apply strip_trailing_slash_app.
Qed.

End Url_facts.

(** X18. [getBaseUrl] returns a configured address that is not blank
    unchanged when it does not end in a slash and with that one slash removed
    when it does; it returns [/api] when no address is configured or the
    configured one is empty or blank.  The result is the empty text exactly
    when the configured address is a lone slash, and that is the only case
    in which [getWebSocketUrl] falls back to the page's own address. *)
Theorem X18_getBaseUrl (trim : string → string) (env : option string) :
  (∀ base, trim (base +:+ "/") ≠ "" →
     Url.getBaseUrl trim (Some (base +:+ "/")) = base) ∧
  (Url.getBaseUrl trim env = "" ↔ env = Some "/" ∧ trim "/" ≠ "") ∧
  (∀ location, Url.getBaseUrl trim env ≠ "" →
     Url.getWebSocketUrl (Url.getBaseUrl trim env) location
       = Url.upgrade_scheme (Url.getBaseUrl trim env) +:+ "/ws") ∧
  (∀ e, e ≠ "" → trim e ≠ "" → (∀ b, e ≠ b +:+ "/") →
     Url.getBaseUrl trim (Some e) = e) ∧
  (env = None ∨ env = Some "" ∨ (∃ e, env = Some e ∧ trim e = "") →
     Url.getBaseUrl trim env = "/api").
Proof.
  split; [|split; [|split; [|split]]].
  - apply getBaseUrl_strips.
  - unfold Url.getBaseUrl. destruct env as [e|]; [|split; [done|by intros [? _]]].
    destruct (String.eqb_spec e "") as [->|He]; simpl.
    { split; [done|]. by intros [? _]. }
    destruct (String.eqb_spec (trim e) "") as [Ht|Ht]; simpl.
    + split; [done|]. intros [E Hne]. inversion E; subst. done.
    + rewrite strip_trailing_slash_empty. split.
      * intros [->| ->]; done.
      * intros [E _]. inversion E. by right.
  - intros location Hne. unfold Url.getWebSocketUrl.
    by destruct (String.eqb_spec (Url.getBaseUrl trim env) "").
  - intros e He Ht Hs. unfold Url.getBaseUrl.
    destruct (String.eqb_spec e "") as [?|_]; [done|].
    destruct (String.eqb_spec (trim e) "") as [?|_]; [done|].
    simpl. by apply strip_trailing_slash_other.
  - unfold Url.getBaseUrl. intros [->|[->|(e & -> & Ht)]]; [done|done|].
    rewrite Ht. simpl. by rewrite andb_false_r.
Qed.

Lemma X18_getBaseUrl_witness :
  Url.getBaseUrl (λ s, s) (Some ("https://api.example.com" +:+ "/"))
    = "https://api.example.com" ∧
  Url.getBaseUrl (λ s, s) (Some "http://localhost:8000")
    = "http://localhost:8000".
Proof.
  destruct (X18_getBaseUrl (λ s, s) None) as (H1 & _ & _ & H4 & _).
  split.
  - apply (H1 "https://api.example.com"). discriminate.
  - apply H4; [discriminate|discriminate|].
    intros b E. pose proof (strip_trailing_slash_app b) as Hs.
    rewrite <- E in Hs. vm_compute in Hs. subst b.
    vm_compute in E. discriminate.
Defined.

(** X19. [getWebSocketUrl] turns a base address that starts with [http]
    into the same address with [ws] in its place and [/ws] appended, so an
    [https] base gives a [wss] address; any other non-empty base just gets
    [/ws] appended.  With [getBaseUrl], a configured [https://host/] gives
    [wss://host/ws]. *)
Theorem X19_getWebSocketUrl (trim : string → string) (rest base host : string)
    (location : option (string * string)) :
  Url.getWebSocketUrl ("http" +:+ rest) location = "ws" +:+ rest +:+ "/ws" ∧
  (base ≠ "" → String.prefix "http" base = false →
     Url.getWebSocketUrl base location = base +:+ "/ws") ∧
  (trim ("https://" +:+ host +:+ "/") ≠ "" →
     Url.getWebSocketUrl
       (Url.getBaseUrl trim (Some ("https://" +:+ host +:+ "/"))) location
     = "wss://" +:+ host +:+ "/ws").
Proof.
  assert (H1 : ∀ r, Url.getWebSocketUrl ("http" +:+ r) location
                    = "ws" +:+ r +:+ "/ws").
  { intros r. unfold Url.getWebSocketUrl.
    change (String.eqb ("http" +:+ r) "") with false. cbv iota.
    rewrite upgrade_scheme_http. apply append_assoc. }
  split; [apply H1|]. split.
  - intros Hne Hp. unfold Url.getWebSocketUrl.
    destruct (String.eqb_spec base "") as [E|_]; [done|].
    unfold Url.upgrade_scheme. by rewrite Hp.
  - intros Ht.
    pose proof (getBaseUrl_strips trim ("https://" +:+ host)) as E.
    rewrite append_assoc in E. rewrite (E Ht).
    apply (H1 ("s://" +:+ host)).
Qed.

Lemma X19_getWebSocketUrl_witness :
  Url.getWebSocketUrl "/api" None = "/api" +:+ "/ws" ∧
  Url.getWebSocketUrl
    (Url.getBaseUrl (λ s, s) (Some ("https://" +:+ "h.example" +:+ "/"))) None
  = "wss://" +:+ "h.example" +:+ "/ws".
Proof.
  destruct (X19_getWebSocketUrl (λ s, s) "" "/api" "h.example" None)
    as (_ & H2 & H3).
  split; [apply H2; [discriminate|reflexivity] | apply H3; discriminate].
Defined.

(** ** The two reducers on one run *)

Section Modes_agree.

Import ModeA.

Lemma indexOf_app_fresh (before rest : list string) (id : string) :
  id ∉ before →
  Js.indexOf (before ++ id :: rest) id = Z.of_nat (length before).
Proof.
  intros Hid. unfold Js.indexOf.
  rewrite list_find_app_r.
  - simpl. rewrite decide_True by done. simpl. f_equal; lia.
  - apply list_find_None, Forall_forall. intros x Hx ->. done.
Qed.

Lemma step_stage_at runOrder ts (ev : WsEvent) (f : StageDetail → StageDetail)
    (id : string) (before rest : list string) (ds tl : list StageDetail)
    (d : StageDetail) (st : Locals) :
  (ev = Ev_stage_start id ∧ f = started id ∨
   ∃ ok err, ev = Ev_stage_end id ok err ∧ f = ended id ok err) →
  orderedStages st = before ++ id :: rest →
  id ∉ before →
  stageDetails st = ds ++ d :: tl →
  length ds = length before →
  orderedStages (step runOrder ts ev st) = before ++ id :: rest ∧
  stageDetails (step runOrder ts ev st) = ds ++ f d :: tl.
Proof.
  intros Hev Ho Hid Hd Hlen.
  assert (Hidx : Js.indexOf (orderedStages st) id = Z.of_nat (length ds)).
  { rewrite Ho, Hlen. by apply indexOf_app_fresh. }
  assert (Hrange : in_range (Js.indexOf (orderedStages st) id) (stageDetails st) = true).
  { unfold in_range. rewrite Hidx, Hd, length_app. simpl.
    apply andb_true_iff. split; [apply Z.leb_le | apply Z.ltb_lt]; lia. }
  assert (Halt : alter f (Z.to_nat (Js.indexOf (orderedStages st) id)) (stageDetails st)
                 = ds ++ f d :: tl).
  { rewrite Hidx, Nat2Z.id, Hd.
    rewrite <- (Nat.add_0_r (length ds)). by rewrite alter_app_r. }
  destruct Hev as [[-> ->]|(ok & err & -> & ->)]; simpl; by rewrite Hrange, Halt.
Qed.

Lemma reported_fold runOrder clock : ∀ (ids : list string) (rs : list StageResult)
    (before : list string) (ds : list StageDetail) (i : nat) (st : Locals),
  orderedStages st = before ++ ids →
  stageDetails st = ds ++ (pending_detail <$> ids) →
  length ds = length before →
  NoDup (before ++ ids) →
  stageDetails (loop runOrder clock i (reported ids rs) st)
    = ds ++ zip_with stage_outcome ids rs
         ++ (pending_detail <$> drop (length rs) ids).
Proof.
  induction ids as [|id ids IH]; intros rs before ds i st Ho Hd Hlen Hnd.
  { destruct rs; simpl; by rewrite Hd, ?drop_nil. }
  destruct rs as [|r rs]; [by simpl; rewrite Hd|].
  cbn [reported loop].
  assert (Hid : id ∉ before).
  { apply NoDup_app in Hnd as (_ & Hdis & _). intros Hx.
    apply (Hdis id Hx). apply list_elem_of_here. }
  rewrite fmap_cons in Hd.
  destruct (step_stage_at runOrder (clock i) (Ev_stage_start id) (started id)
              id before ids ds (pending_detail <$> ids) (pending_detail id) st)
    as [Ho1 Hd1]; try done; [by left|].
  destruct (step_stage_at runOrder (clock (S i))
              (Ev_stage_end id (sr_success r) (sr_error r))
              (ended id (sr_success r) (sr_error r))
              id before ids ds (pending_detail <$> ids)
              (started id (pending_detail id))
              (step runOrder (clock i) (Ev_stage_start id) st))
    as [Ho2 Hd2]; try done; [right; by eexists _, _|].
  rewrite (IH rs (before ++ [id]) (ds ++ [stage_outcome id r])).
  - by rewrite <- !app_assoc.
  - by rewrite Ho2, <- app_assoc.
  - by rewrite Hd2, <- app_assoc.
  - rewrite !length_app. simpl. lia.
  - by rewrite <- app_assoc.
Qed.

Lemma result_details_zip : ∀ (rs : list StageResult) (order : list string),
  (length rs ≤ length order)%nat →
  ModeB.result_details order rs = zip_with stage_outcome order rs.
Proof.
  unfold ModeB.result_details.
  induction rs as [|r rs IH]; intros order Hlen; [by destruct order|].
  destruct order as [|id order]; simpl in Hlen; [lia|].
  rewrite imap_cons. simpl. f_equal. rewrite <- IH by lia. done.
Qed.

End Modes_agree.

(** X20. The two reducers agree on a run that reports in order.  For a
    duplicate-free stage order and a result list no longer than it, the live
    fold over [run_start], [pipeline_start] with that order, one
    [stage_start] and [stage_end] per result in order, and [done], yields
    the very StageDetail entries that a terminal poll builds from the same
    results, followed by a [pending] entry for every stage without a
    result. *)
Theorem X20_modes_agree_on_stages (clock : nat → string)
    (runOrder order : list string) (rs : list StageResult)
    (runId : string) (ok : bool) (res : option (list StageResult)) :
  NoDup order → (length rs ≤ length order)%nat →
  stages (ModeA.stagesFromWsEvents clock
            ([Ev_run_start runId; Ev_pipeline_start (Some order)]
               ++ reported order rs ++ [Ev_done ok res]) runOrder)
  = ModeB.result_details order rs
      ++ (ModeA.pending_detail <$> drop (length rs) order).
Proof.
  intros Hnd Hlen. rewrite stages_view, app_assoc, run_snoc.
  cbn [ModeA.step ModeA.push ModeA.stageDetails].
  unfold ModeA.run. cbn [app ModeA.loop].
  rewrite (reported_fold runOrder clock order rs [] []); try done.
  by rewrite result_details_zip.
Qed.

Lemma X20_modes_agree_witness :
  stages (ModeA.stagesFromWsEvents (λ _, "10:00:00")
            ([Ev_run_start "r1";
              Ev_pipeline_start (Some ["graph_traverser"; "chatml_converter"])]
               ++ reported ["graph_traverser"; "chatml_converter"]
                    [{| sr_success := false; sr_error := Some "Neo4j unreachable" |}]
               ++ [Ev_done false None]) ["graph_traverser"])
  = ModeB.result_details ["graph_traverser"; "chatml_converter"]
      [{| sr_success := false; sr_error := Some "Neo4j unreachable" |}]
      ++ (ModeA.pending_detail <$>
            drop 1 ["graph_traverser"; "chatml_converter"]).
Proof.
  apply (X20_modes_agree_on_stages (λ _, "10:00:00") ["graph_traverser"]
           ["graph_traverser"; "chatml_converter"]
           [{| sr_success := false; sr_error := Some "Neo4j unreachable" |}]
           "r1" false None).
  - repeat (apply NoDup_cons; split;
            [intros Hx; repeat (apply elem_of_cons in Hx as [Hx|Hx]; [discriminate|]);
             by apply elem_of_nil in Hx|]).
    apply NoDup_nil_2.
  - simpl. lia.
Defined.


